(** * fibox/cache: the LRU cache with TTL ([cache/lru.go])

    A shallow embedding of [LRUCache] and of its public operations, and the
    properties of the cache stated in the specification.

    - Go strings are byte sequences: [string] (a list of 8-bit [ascii]).
    - [time.Time] is an instant on a line: [Z], nanoseconds counted from the
      zero instant [time.Time{}], so [IsZero] is [= 0] and [After] is [>].
      [time.Duration] is a number of nanoseconds.  The clock is an input:
      every operation that calls [time.Now()] takes the reading [now].
    - [int64] counters wrap around ([wrap64]).
    - [map[string]time.Time] is a [gmap string Z].
    - [interface{}] payloads are an arbitrary type [V]; the pair
      [(interface{}, bool)] returned by [Get] is an [option V].
    - the [logging.DebugWithFields] call of every operation is the [logged]
      component of its outcome.
    - the eviction engine is the imported [golang-lru] cache; its source is
      not in the repository, and it is modelled after section 4.1 of the
      specification (module [lru]). *)

From Stdlib Require Import ZArith Lia Ascii.
From stdpp Require Import gmap strings list fin_maps.

Local Open Scope Z_scope.

(** ** The eviction engine *)

Module lru.
Section Engine.
Context {K Val : Type} `{EqDecision K}.

(** Modelled from the spec: the eviction engine of section 4.1, which the
    repository imports ([github.com/hashicorp/golang-lru/v2]) and whose
    source is not part of the repository.  A capacity and the entries in
    recency order, most recently used first. *)
Record Cache := mk { capacity : Z; evictList : list (K * Val) }.

(** Modelled from the spec: the entry stored under a key, looked up from
    the most recently used end. *)
Fixpoint find (key : K) (l : list (K * Val)) : option Val :=
  match l with
  | [] => None
  | (k, v) :: l' => if decide (k = key) then Some v else find key l'
  end.

(** Modelled from the spec: the entries left when a key is taken out; the
    others keep their order. *)
Fixpoint without (key : K) (l : list (K * Val)) : list (K * Val) :=
  match l with
  | [] => []
  | (k, v) :: l' =>
      if decide (k = key) then without key l' else (k, v) :: without key l'
  end.

(** Modelled from the spec: [lru.New] of the imported engine; it fails
    when the capacity is not positive. *)
Definition New (size : Z) : option Cache :=
  if size <=? 0 then None else Some (mk size []).

(** Modelled from the spec: [get] of section 4.1; a hit marks the key as
    most recently used, a miss changes nothing. *)
Definition Get (key : K) (c : Cache) : Cache * option Val :=
  match find key (evictList c) with
  | Some v => (mk (capacity c) ((key, v) :: without key (evictList c)), Some v)
  | None => (c, None)
  end.

(** Modelled from the spec: the engine drops its least recently used
    entry. *)
Definition removeOldest (l : list (K * Val)) : list (K * Val) := removelast l.

(** Modelled from the spec: [put] of section 4.1; replacing an existing
    key evicts nothing, inserting a new key into a full store evicts
    exactly the least recently used one; the key becomes the most
    recently used. *)
Definition Add (key : K) (v : Val) (c : Cache) : Cache :=
  match find key (evictList c) with
  | Some _ => mk (capacity c) ((key, v) :: without key (evictList c))
  | None =>
      let l := (key, v) :: evictList c in
      mk (capacity c)
         (if capacity c <? Z.of_nat (length l) then removeOldest l else l)
  end.

(** Modelled from the spec: [remove] of section 4.1. *)
Definition Remove (key : K) (c : Cache) : Cache :=
  mk (capacity c) (without key (evictList c)).

(** Modelled from the spec: [purge] of section 4.1. *)
Definition Purge (c : Cache) : Cache := mk (capacity c) [].

(** Modelled from the spec: [len] of section 4.1. *)
Definition Len (c : Cache) : Z := Z.of_nat (length (evictList c)).

(** Modelled from the spec: whether the engine holds a key, and the keys it
    holds, most recently used first. *)
Definition Contains (key : K) (c : Cache) : Prop :=
  is_Some (find key (evictList c)).

Definition keys (c : Cache) : list K := (evictList c).*1.

(** The capacity is positive and never exceeded. *)
Definition bounded (c : Cache) : Prop :=
  0 < capacity c ∧ Len c ≤ capacity c.
End Engine.
Global Arguments Cache : clear implicits.
End lru.

(** ** Data model of [cache/lru.go] *)

Definition wrap64 (z : Z) : Z := (z + 2 ^ 63) mod 2 ^ 64 - 2 ^ 63.
Definition int64 (z : Z) : Prop := - 2 ^ 63 ≤ z < 2 ^ 63.
Definition MaxInt64 : Z := 2 ^ 63 - 1.

Definition IsZero (t : Z) : bool := t =? 0.
Definition After (t u : Z) : bool := u <? t.
Definition TimeAdd (t d : Z) : Z := t + d.

Record Stats := mkStats { Hits : Z; Misses : Z; Size : Z }.

Record cacheItem (V : Type) := mkItem { value : V; expiresAt : Z }.
Arguments mkItem {V}.
Arguments value {V}.
Arguments expiresAt {V}.

Record LRUCache (V : Type) := mkLRUCache {
  cache : lru.Cache string (cacheItem V);
  stats : Stats;
  ttlMap : gmap string Z
}.
Arguments mkLRUCache {V}.
Arguments cache {V}.
Arguments stats {V}.
Arguments ttlMap {V}.

(** The Go [error] type; every operation of the cache returns [nil]. *)
Definition error := option string.
Definition nil : error := None.

(** One call of [logging.DebugWithFields]. *)
Inductive LogValue :=
| LStr (s : string)
| LBool (b : bool)
| LInt (n : Z)
| LDuration (d : Z).  (* [d.String()], kept as the duration it renders *)

Record LogEvent := mkLog { msg : string; fields : list (string * LogValue) }.

Record Outcome (V R : Type) := mkOutcome {
  ret : R;
  next : LRUCache V;
  logged : LogEvent
}.
Arguments mkOutcome {V R}.
Arguments ret {V R}.
Arguments next {V R}.
Arguments logged {V R}.

(** ** The operations *)

Section Operations.
Context {V : Type}.
Implicit Types (c : LRUCache V) (key pattern : string) (now ttl : Z).

Definition incMisses (s : Stats) : Stats :=
  mkStats (Hits s) (wrap64 (Misses s + 1)) (Size s).
Definition incHits (s : Stats) : Stats :=
  mkStats (wrap64 (Hits s + 1)) (Misses s) (Size s).

Definition NewLRUCache (size : Z) : option (LRUCache V) :=
  match lru.New size with
  | None => None
  | Some e => Some (mkLRUCache e (mkStats 0 0 0) ∅)
  end.

(** The expiry test of [Get]:
    [!item.expiresAt.IsZero() && time.Now().After(item.expiresAt)]. *)
Definition expired now (item : cacheItem V) : bool :=
  negb (IsZero (expiresAt item)) && After now (expiresAt item).

Definition Get now key c : Outcome V (option V) :=
  match lru.Get key (cache c) with
  | (e, None) =>
      mkOutcome None
        (mkLRUCache e (incMisses (stats c)) (ttlMap c))
        (mkLog "Cache miss" [("key", LStr key); ("cache_hit", LBool false)])
  | (e, Some item) =>
      if expired now item then
        mkOutcome None
          (mkLRUCache (lru.Remove key e) (incMisses (stats c))
             (delete key (ttlMap c)))
          (mkLog "Cache expired" [("key", LStr key); ("cache_hit", LBool false)])
      else
        mkOutcome (Some (value item))
          (mkLRUCache e (incHits (stats c)) (ttlMap c))
          (mkLog "Cache hit" [("key", LStr key); ("cache_hit", LBool true)])
  end.

Definition Set_ key (v : V) c : Outcome V error :=
  let item := mkItem v 0 in
  mkOutcome nil
    (mkLRUCache (lru.Add key item (cache c)) (stats c) (delete key (ttlMap c)))
    (mkLog "Cache set" [("key", LStr key)]).

Definition SetWithTTL now key (v : V) ttl c : Outcome V error :=
  let item := mkItem v (TimeAdd now ttl) in
  mkOutcome nil
    (mkLRUCache (lru.Add key item (cache c)) (stats c)
       (<[key := expiresAt item]> (ttlMap c)))
    (mkLog "Cache set with TTL"
       [("key", LStr key); ("duration", LDuration ttl)]).

Definition Delete key c : Outcome V error :=
  mkOutcome nil
    (mkLRUCache (lru.Remove key (cache c)) (stats c) (delete key (ttlMap c)))
    (mkLog "Cache delete" [("key", LStr key)]).

Definition Clear c : Outcome V error :=
  let e := lru.Purge (cache c) in
  mkOutcome nil
    (mkLRUCache e (stats c) ∅)
    (mkLog "Cache cleared" [("size", LInt (lru.Len e))]).

Definition matchesPattern key pattern : bool :=
  let n := String.length pattern in
  if (0 <? n)%nat && bool_decide (String.get (n - 1) pattern = Some "*"%char) then
    let prefix := String.substring 0 (n - 1) pattern in
    (String.length prefix <=? String.length key)%nat
    && String.eqb (String.substring 0 (String.length prefix) key) prefix
  else String.eqb key pattern.

(** The first loop of [DeleteByPattern]: the keys of [ttlMap] that match,
    in the order in which the map is ranged over. *)
Definition keysToDelete pattern c : list string :=
  filter (λ key, matchesPattern key pattern = true) (map_to_list (ttlMap c)).*1.

(** The second loop: each collected key leaves the engine and the map. *)
Definition deleteKeys (ks : list string) c : LRUCache V :=
  foldl (λ c key,
           mkLRUCache (lru.Remove key (cache c)) (stats c) (delete key (ttlMap c)))
        c ks.

Definition DeleteByPattern pattern c : Outcome V error :=
  let ks := keysToDelete pattern c in
  mkOutcome nil
    (deleteKeys ks c)
    (mkLog "Cache delete by pattern"
       [("pattern", LStr pattern); ("count", LInt (Z.of_nat (length ks)))]).

(** [Stats] stores the engine's length in [c.stats.Size] and returns a
    copy of [c.stats]; it logs nothing. *)
Definition Stats_ c : Stats * LRUCache V :=
  let s := mkStats (Hits (stats c)) (Misses (stats c)) (lru.Len (cache c)) in
  (s, mkLRUCache (cache c) s (ttlMap c)).
End Operations.

(** ** Sequences of calls *)

Inductive Call (V : Type) :=
| CGet (key : string)
| CSet (key : string) (v : V)
| CSetWithTTL (key : string) (v : V) (ttl : Z)
| CDelete (key : string)
| CDeleteByPattern (pattern : string)
| CClear
| CStats.
Arguments CGet {V}.
Arguments CSet {V}.
Arguments CSetWithTTL {V}.
Arguments CDelete {V}.
Arguments CDeleteByPattern {V}.
Arguments CClear {V}.
Arguments CStats {V}.

Section Runs.
Context {V : Type}.

(** The state after one call made when the clock reads [now]. *)
Definition step (now : Z) (o : Call V) (c : LRUCache V) : LRUCache V :=
  match o with
  | CGet key => next (Get now key c)
  | CSet key v => next (Set_ key v c)
  | CSetWithTTL key v ttl => next (SetWithTTL now key v ttl c)
  | CDelete key => next (Delete key c)
  | CDeleteByPattern pattern => next (DeleteByPattern pattern c)
  | CClear => next (Clear c)
  | CStats => snd (Stats_ c)
  end.

(** A timed call sequence, executed left to right. *)
Definition run (calls : list (Z * Call V)) (c : LRUCache V) : LRUCache V :=
  foldl (λ c tc, step tc.1 tc.2 c) c calls.

(** The cache that [NewLRUCache size] returns when it succeeds. *)
Definition newCache (size : Z) : LRUCache V :=
  mkLRUCache (lru.mk size []) (mkStats 0 0 0) ∅.

(** The states a client can reach from the constructor. *)
Definition reachable (c : LRUCache V) : Prop :=
  ∃ size c0 calls, NewLRUCache size = Some c0 ∧ c = run calls c0.

(** The engine holds [key] / the expiration index holds [key]. *)
Definition inEngine (key : string) (c : LRUCache V) : Prop :=
  lru.Contains key (cache c).
Definition inIndex (key : string) (c : LRUCache V) : Prop :=
  is_Some (ttlMap c !! key).

(** The calls that store an entry, and the key a call names. *)
Definition isSet (o : Call V) : Prop :=
  match o with
  | CSet _ _ | CSetWithTTL _ _ _ => True
  | _ => False
  end.

Definition callKey (o : Call V) : option string :=
  match o with
  | CGet key | CSet key _ | CSetWithTTL key _ _ | CDelete key => Some key
  | _ => None
  end.

(** [o] stores an entry under [key]. *)
Definition stores (key : string) (o : Call V) : Prop :=
  isSet o ∧ callKey o = Some key.

(** The calls that only read: [Get] and [Stats]. *)
Definition isRead (o : Call V) : Prop :=
  match o with
  | CGet _ | CStats => True
  | _ => False
  end.

(** The entry the engine holds for [key], if any. *)
Definition entry (key : string) (c : LRUCache V) : option (cacheItem V) :=
  lru.find key (lru.evictList (cache c)).

(** The keys [DeleteByPattern] is after: tracked by the expiration index
    and matched by the pattern. *)
Definition targeted (pattern key : string) (c : LRUCache V) : Prop :=
  inIndex key c ∧ matchesPattern key pattern = true.

(** Every key of the expiration index is in the engine. *)
Definition indexInEngine (c : LRUCache V) : Prop :=
  ∀ key, inIndex key c → inEngine key c.

(** The call stores under a key that the engine does not hold while the
    engine is full: the engine will evict. *)
Definition evicts (o : Call V) (c : LRUCache V) : Prop :=
  ∃ key, stores key o ∧ ¬ inEngine key c ∧
         lru.capacity (cache c) ≤ lru.Len (cache c).

(** The entries without deadline are outside the expiration index. *)
Definition plainUntracked (c : LRUCache V) : Prop :=
  ∀ key item, entry key c = Some item → expiresAt item = 0 → ¬ inIndex key c.

(** The deadline of a [SetWithTTL] made at [now] is not the zero instant. *)
Definition realDeadline (now : Z) (o : Call V) : Prop :=
  match o with
  | CSetWithTTL _ _ ttl => TimeAdd now ttl ≠ 0
  | _ => True
  end.

(** What [Stats] reports in a state. *)
Definition statsOf (c : LRUCache V) : Stats := (Stats_ c).1.

(** The number of keys that leave the expiration index in
    [DeleteByPattern]. *)
Definition removed (pattern : string) (c : LRUCache V) : Z :=
  Z.of_nat (size (ttlMap c))
  - Z.of_nat (size (ttlMap (next (DeleteByPattern pattern c)))).
End Runs.

(** ** The operations under concurrent callers

    [LRUCache] has no lock: its fields are the engine, the counters and the
    map, and no method of [lru.go] acquires anything.  The imported engine
    locks internally, so each single call into it is one atomic step; every
    other access to the shared cache (a load or a store of a counter, a map
    operation, a log call) is a step of its own, and steps of concurrent
    callers interleave.  A method is the program of its steps, in source
    order; [c.stats.Misses++] is a load followed by a store. *)

Inductive Instr (V : Type) : Type → Type :=
| ICacheGet (key : string) : Instr V (option (cacheItem V))
| ICacheAdd (key : string) (item : cacheItem V) : Instr V unit
| ICacheRemove (key : string) : Instr V unit
| ICachePurge : Instr V unit
| ICacheLen : Instr V Z
| ILoadHits : Instr V Z
| IStoreHits (n : Z) : Instr V unit
| ILoadMisses : Instr V Z
| IStoreMisses (n : Z) : Instr V unit
| IStoreSize (n : Z) : Instr V unit
| ILoadStats : Instr V Stats
| IMapDelete (key : string) : Instr V unit
| IMapStore (key : string) (t : Z) : Instr V unit
| IMapRange : Instr V (list string)
| IMapMake : Instr V unit
| ILog (e : LogEvent) : Instr V unit.
Arguments ICacheGet {V}.
Arguments ICacheAdd {V}.
Arguments ICacheRemove {V}.
Arguments ICachePurge {V}.
Arguments ICacheLen {V}.
Arguments ILoadHits {V}.
Arguments IStoreHits {V}.
Arguments ILoadMisses {V}.
Arguments IStoreMisses {V}.
Arguments IStoreSize {V}.
Arguments ILoadStats {V}.
Arguments IMapDelete {V}.
Arguments IMapStore {V}.
Arguments IMapRange {V}.
Arguments IMapMake {V}.
Arguments ILog {V}.

(** A caller in the middle of a method: finished with a result, or about to
    take one atomic step and go on with what the step returned. *)
Inductive Prog (V R : Type) : Type :=
| Done (r : R)
| Do {A : Type} (i : Instr V A) (k : A → Prog V R).
Arguments Done {V R}.
Arguments Do {V R A}.

Notation "'atomically' x ← i 'then' k" := (Do i (λ x, k))
  (at level 10, x name, i at level 100, k at level 200,
   format "'[v' 'atomically'  x  ←  i  'then' '/' k ']'").

(** What a call hands back to its caller. *)
Inductive Reply (V : Type) :=
| ReplyGet (r : option V)
| ReplyErr (e : error)
| ReplyStats (s : Stats).
Arguments ReplyGet {V}.
Arguments ReplyErr {V}.
Arguments ReplyStats {V}.

Section Concurrent.
Context {V : Type}.

(** The shared cache and the log written so far. *)
Definition Shared : Type := LRUCache V * list LogEvent.

Definition perform {A} (i : Instr V A) (σ : Shared) : A * Shared :=
  let c := σ.1 in
  let tr := σ.2 in
  match i in Instr _ A return A * Shared with
  | ICacheGet key =>
      let er := lru.Get key (cache c) in
      (er.2, (mkLRUCache er.1 (stats c) (ttlMap c), tr))
  | ICacheAdd key item =>
      (tt, (mkLRUCache (lru.Add key item (cache c)) (stats c) (ttlMap c), tr))
  | ICacheRemove key =>
      (tt, (mkLRUCache (lru.Remove key (cache c)) (stats c) (ttlMap c), tr))
  | ICachePurge =>
      (tt, (mkLRUCache (lru.Purge (cache c)) (stats c) (ttlMap c), tr))
  | ICacheLen => (lru.Len (cache c), σ)
  | ILoadHits => (Hits (stats c), σ)
  | IStoreHits n =>
      (tt, (mkLRUCache (cache c)
              (mkStats n (Misses (stats c)) (Size (stats c))) (ttlMap c), tr))
  | ILoadMisses => (Misses (stats c), σ)
  | IStoreMisses n =>
      (tt, (mkLRUCache (cache c)
              (mkStats (Hits (stats c)) n (Size (stats c))) (ttlMap c), tr))
  | IStoreSize n =>
      (tt, (mkLRUCache (cache c)
              (mkStats (Hits (stats c)) (Misses (stats c)) n) (ttlMap c), tr))
  | ILoadStats => (stats c, σ)
  | IMapDelete key =>
      (tt, (mkLRUCache (cache c) (stats c) (delete key (ttlMap c)), tr))
  | IMapStore key t =>
      (tt, (mkLRUCache (cache c) (stats c) (<[key := t]> (ttlMap c)), tr))
  | IMapRange => ((map_to_list (ttlMap c)).*1, σ)
  | IMapMake => (tt, (mkLRUCache (cache c) (stats c) ∅, tr))
  | ILog e => (tt, (c, tr ++ [e]))
  end.

Definition GetP (now : Z) (key : string) : Prog V (Reply V) :=
  atomically r ← ICacheGet key then
  match r with
  | None =>
      atomically m ← ILoadMisses then
      atomically _ ← IStoreMisses (wrap64 (m + 1)) then
      atomically _ ← ILog (mkLog "Cache miss"
                             [("key", LStr key); ("cache_hit", LBool false)]) then
      Done (ReplyGet None)
  | Some item =>
      if expired now item then
        atomically _ ← ICacheRemove key then
        atomically _ ← IMapDelete key then
        atomically m ← ILoadMisses then
        atomically _ ← IStoreMisses (wrap64 (m + 1)) then
        atomically _ ← ILog (mkLog "Cache expired"
                               [("key", LStr key); ("cache_hit", LBool false)]) then
        Done (ReplyGet None)
      else
        atomically h ← ILoadHits then
        atomically _ ← IStoreHits (wrap64 (h + 1)) then
        atomically _ ← ILog (mkLog "Cache hit"
                               [("key", LStr key); ("cache_hit", LBool true)]) then
        Done (ReplyGet (Some (value item)))
  end.

Definition SetP (key : string) (v : V) : Prog V (Reply V) :=
  atomically _ ← ICacheAdd key (mkItem v 0) then
  atomically _ ← IMapDelete key then
  atomically _ ← ILog (mkLog "Cache set" [("key", LStr key)]) then
  Done (ReplyErr nil).

Definition SetWithTTLP (now : Z) (key : string) (v : V) (ttl : Z) : Prog V (Reply V) :=
  atomically _ ← ICacheAdd key (mkItem v (TimeAdd now ttl)) then
  atomically _ ← IMapStore key (TimeAdd now ttl) then
  atomically _ ← ILog (mkLog "Cache set with TTL"
                         [("key", LStr key); ("duration", LDuration ttl)]) then
  Done (ReplyErr nil).

Definition DeleteP (key : string) : Prog V (Reply V) :=
  atomically _ ← ICacheRemove key then
  atomically _ ← IMapDelete key then
  atomically _ ← ILog (mkLog "Cache delete" [("key", LStr key)]) then
  Done (ReplyErr nil).

Definition ClearP : Prog V (Reply V) :=
  atomically _ ← ICachePurge then
  atomically _ ← IMapMake then
  atomically n ← ICacheLen then
  atomically _ ← ILog (mkLog "Cache cleared" [("size", LInt n)]) then
  Done (ReplyErr nil).

(** The second loop of [DeleteByPattern], then what follows it. *)
Fixpoint deleteKeysP (ks : list string) (k : Prog V (Reply V)) : Prog V (Reply V) :=
  match ks with
  | [] => k
  | key :: ks =>
      atomically _ ← ICacheRemove key then
      atomically _ ← IMapDelete key then
      deleteKeysP ks k
  end.

Definition DeleteByPatternP (pattern : string) : Prog V (Reply V) :=
  atomically keys ← IMapRange then
  let ks := filter (λ key, matchesPattern key pattern = true) keys in
  deleteKeysP ks
    (atomically _ ← ILog (mkLog "Cache delete by pattern"
                            [("pattern", LStr pattern);
                             ("count", LInt (Z.of_nat (length ks)))]) then
     Done (ReplyErr nil)).

Definition StatsP : Prog V (Reply V) :=
  atomically n ← ICacheLen then
  atomically _ ← IStoreSize n then
  atomically s ← ILoadStats then
  Done (ReplyStats s).

Definition callP (now : Z) (o : Call V) : Prog V (Reply V) :=
  match o with
  | CGet key => GetP now key
  | CSet key v => SetP key v
  | CSetWithTTL key v ttl => SetWithTTLP now key v ttl
  | CDelete key => DeleteP key
  | CDeleteByPattern pattern => DeleteByPatternP pattern
  | CClear => ClearP
  | CStats => StatsP
  end.

(** A caller that runs alone takes all its steps in a row. *)
Fixpoint runAlone {R} (p : Prog V R) (σ : Shared) : R * Shared :=
  match p with
  | Done r => (r, σ)
  | Do i k => let aσ := perform i σ in runAlone (k aσ.1) aσ.2
  end.

(** One step of a caller. *)
Definition stepProg {R} (p : Prog V R) (σ : Shared) : Prog V R * Shared :=
  match p with
  | Done r => (p, σ)
  | Do i k => let aσ := perform i σ in (k aσ.1, aσ.2)
  end.

(** Concurrent callers under a schedule: the list of the callers that take
    the next steps, one step each. *)
Fixpoint interleave {R} (sched : list nat) (pool : list (Prog V R)) (σ : Shared)
  : list (Prog V R) * Shared :=
  match sched with
  | [] => (pool, σ)
  | i :: sched =>
      match pool !! i with
      | Some p =>
          let pσ := stepProg p σ in
          interleave sched (<[i := pσ.1]> pool) pσ.2
      | None => interleave sched pool σ
      end
  end.

(** What the sequential operations reply and log. *)
Definition replyOf (now : Z) (o : Call V) (c : LRUCache V) : Reply V :=
  match o with
  | CGet key => ReplyGet (ret (Get now key c))
  | CSet key v => ReplyErr (ret (Set_ key v c))
  | CSetWithTTL key v ttl => ReplyErr (ret (SetWithTTL now key v ttl c))
  | CDelete key => ReplyErr (ret (Delete key c))
  | CDeleteByPattern pattern => ReplyErr (ret (DeleteByPattern pattern c))
  | CClear => ReplyErr (ret (Clear c))
  | CStats => ReplyStats (Stats_ c).1
  end.

Definition logOf (now : Z) (o : Call V) (c : LRUCache V) : list LogEvent :=
  match o with
  | CGet key => [logged (Get now key c)]
  | CSet key v => [logged (Set_ key v c)]
  | CSetWithTTL key v ttl => [logged (SetWithTTL now key v ttl c)]
  | CDelete key => [logged (Delete key c)]
  | CDeleteByPattern pattern => [logged (DeleteByPattern pattern c)]
  | CClear => [logged (Clear c)]
  | CStats => []
  end.

(** Callers that come one after the other, each running alone. *)
Definition runSerial (calls : list (Z * Call V)) (σ : Shared) : list (Reply V) * Shared :=
  foldl (λ acc tc,
           let rσ := runAlone (callP tc.1 tc.2) acc.2 in
           (acc.1 ++ [rσ.1], rσ.2))
        ([], σ) calls.

(** The replies and the log of the sequential operations. *)
Definition runSeq (calls : list (Z * Call V)) (σ : Shared) : list (Reply V) * Shared :=
  foldl (λ acc tc,
           (acc.1 ++ [replyOf tc.1 tc.2 acc.2.1],
            (step tc.1 tc.2 acc.2.1, acc.2.2 ++ logOf tc.1 tc.2 acc.2.1)))
        ([], σ) calls.
End Concurrent.

(** ** Further notions about runs *)

Section RunNotions.
Context {V : Type}.

Definition isGet (o : Call V) : bool :=
  match o with
  | CGet _ => true
  | _ => false
  end.

(** The number of [Get] calls of a run. *)
Definition countGets (calls : list (Z * Call V)) : Z :=
  Z.of_nat (length (filter (λ tc, isGet tc.2 = true) calls)).

(** No call of the run makes the engine evict. *)
Fixpoint neverEvicts (calls : list (Z * Call V)) (c : LRUCache V) : Prop :=
  match calls with
  | [] => True
  | tc :: calls => ¬ evicts tc.2 c ∧ neverEvicts calls (step tc.1 tc.2 c)
  end.

(** The key and the entry that a storing call made at [tc.1] puts into the
    engine. *)
Definition storedItem (tc : Z * Call V) : option (string * cacheItem V) :=
  match tc.2 with
  | CSet key v => Some (key, mkItem v 0)
  | CSetWithTTL key v ttl => Some (key, mkItem v (TimeAdd tc.1 ttl))
  | _ => None
  end.

(** A read made no later than the instant [deadline]. *)
Definition readBy (deadline : Z) (tc : Z * Call V) : Prop :=
  isRead tc.2 ∧ tc.1 ≤ deadline.
End RunNotions.

(** ** Package [response] ([response/response.go])

    A responder ends in [c.Status(code).JSON(Response{...})]: it is
    modelled by the status code and the [Response] value it hands to the
    encoder.  Go [int]s are 64-bit: [/] is [Z.quot], [%] is [Z.rem] and
    [++] wraps around. *)

Module response.
Record Pagination := mkPagination {
  PageNo : Z;
  PageSize : Z;
  PageTotal : Z;
  TotalRecord : Z
}.

Record Response (D : Type) := mkResponse {
  Success : bool;
  Message : string;
  Data : option D;
  Pagination_ : Pagination
}.
Arguments mkResponse {D}.
Arguments Success {D}.
Arguments Message {D}.
Arguments Data {D}.
Arguments Pagination_ {D}.

(** What a responder sends. *)
Record Sent (D : Type) := mkSent { status : Z; body : Response D }.
Arguments mkSent {D}.
Arguments status {D}.
Arguments body {D}.

(** The status codes of [fiber] that the package uses. *)
Definition StatusOK : Z := 200.
Definition StatusCreated : Z := 201.
Definition StatusBadRequest : Z := 400.
Definition StatusUnauthorized : Z := 401.
Definition StatusForbidden : Z := 403.
Definition StatusNotFound : Z := 404.
Definition StatusInternalServerError : Z := 500.

(** The zero value of [Pagination]. *)
Definition noPagination : Pagination := mkPagination 0 0 0 0.

Section Responders.
Context {D : Type}.

Definition Success_ (message : string) (data : option D) : Sent D :=
  mkSent StatusOK (mkResponse true message data noPagination).

Definition SuccessWithPagination (message : string) (data : option D)
    (pageNo pageSize totalRecord : Z) : Sent D :=
  let totalPage := 0 in
  let totalPage :=
    if 0 <? pageSize then
      let totalPage := Z.quot totalRecord pageSize in
      if 0 <? Z.rem totalRecord pageSize then wrap64 (totalPage + 1) else totalPage
    else totalPage in
  let pageNo := if totalPage <? pageNo then totalPage else pageNo in
  mkSent StatusOK
    (mkResponse true message data (mkPagination pageNo pageSize totalPage 0)).

Definition Created (message : string) (data : option D) : Sent D :=
  mkSent StatusCreated (mkResponse true message data noPagination).

Definition BadRequest (message : string) : Sent D :=
  mkSent StatusBadRequest (mkResponse false message None noPagination).

Definition Unauthorized (message : string) : Sent D :=
  mkSent StatusUnauthorized (mkResponse false message None noPagination).

Definition Forbidden (message : string) : Sent D :=
  mkSent StatusForbidden (mkResponse false message None noPagination).

Definition NotFound (message : string) : Sent D :=
  mkSent StatusNotFound (mkResponse false message None noPagination).

Definition InternalError (message : string) : Sent D :=
  mkSent StatusInternalServerError (mkResponse false message None noPagination).
End Responders.
End response.

(** ** Package [middleware]: [AuthMiddleware] and [GetAuthInfo]

    The request context is what the handler uses of it: the value
    [c.Get("Authorization")] returns (the empty string when the header is
    missing) and the locals.  The handler either replies itself or calls
    [c.Next()] on the context it has prepared.  The [jwt] package is not
    part of the sources at hand: [ValidateToken] is a parameter. *)

Module middleware.
(** A value of type [any] kept in the locals. *)
Inductive any :=
| AnyString (s : string)
| AnyInt (n : Z).

Record Ctx := mkCtx { Authorization : string; locals : gmap string any }.

Record AuthInfo := mkAuthInfo { UserID : string; Email : string; Role : string }.

(** The claims of a token, as the handler reads them. *)
Record Claims := mkClaims { claimUserID : string; claimEmail : string; claimRole : string }.

(** The errors of [ValidateToken]: [jwt.ErrExpiredToken] or another one. *)
Inductive TokenError :=
| ErrExpiredToken
| ErrOther (msg : string).

Inductive Handled (D : Type) :=
| Replied (s : response.Sent D)
| Forwarded (c : Ctx).
Arguments Replied {D}.
Arguments Forwarded {D}.

(** [strings.Split(s, sep)] for a separator of one byte: the pieces between
    the separators, one more than there are separators. *)
Fixpoint Split (s : string) (sep : ascii) : list string :=
  match s with
  | EmptyString => [EmptyString]
  | String a s' =>
      if decide (a = sep) then EmptyString :: Split s' sep
      else match Split s' sep with
           | w :: ws => String a w :: ws
           | [] => [String a EmptyString]
           end
  end.

(** [c.Locals(key, value)]. *)
Definition setLocal (key : string) (v : any) (c : Ctx) : Ctx :=
  mkCtx (Authorization c) (<[key := v]> (locals c)).

Section Auth.
Context {D : Type}.
Variable ValidateToken : string → Claims + TokenError.

Definition AuthMiddleware (c : Ctx) : Handled D :=
  let authHeader := Authorization c in
  if decide (authHeader = "") then
    Replied (response.Unauthorized "Authorization header is required")
  else
    let parts := Split authHeader " "%char in
    if negb (length parts =? 2)%nat
       || negb (bool_decide (parts !! 0%nat = Some "Bearer")) then
      Replied (response.Unauthorized "Invalid authorization header format")
    else
      let tokenString := default "" (parts !! 1%nat) in
      match ValidateToken tokenString with
      | inr err =>
          match err with
          | ErrExpiredToken => Replied (response.Unauthorized "Token has expired")
          | _ => Replied (response.Unauthorized "Invalid token")
          end
      | inl claims =>
          let c := setLocal "userID" (AnyString (claimUserID claims)) c in
          let c := setLocal "email" (AnyString (claimEmail claims)) c in
          let c := setLocal "role" (AnyString (claimRole claims)) c in
          Forwarded c
      end.
End Auth.

(** [c.Locals(key).(string)]: the type assertion panics ([None]) when the
    local is missing or is not a string. *)
Definition localString (key : string) (c : Ctx) : option string :=
  match locals c !! key with
  | Some (AnyString s) => Some s
  | _ => None
  end.

Definition GetAuthInfo (c : Ctx) : option AuthInfo :=
  match localString "userID" c with
  | None => None
  | Some u =>
      match localString "email" c with
      | None => None
      | Some e =>
          match localString "role" c with
          | None => None
          | Some r => Some (mkAuthInfo u e r)
          end
      end
  end.

(** The string has no byte [sep]. *)
Fixpoint free (sep : ascii) (s : string) : Prop :=
  match s with
  | EmptyString => True
  | String a s' => a ≠ sep ∧ free sep s'
  end.
End middleware.

(** ** Package [logging]: [parseLogLevel] and [SetLogLevel]

    [strings.ToLower] on a string of ASCII bytes lowers the bytes ['A'] to
    ['Z']; on any other string it maps [unicode.ToLower] over the runes,
    which is kept as a parameter. *)

Module logging.
(** The levels of [zerolog]. *)
Inductive Level :=
| TraceLevel
| DebugLevel
| InfoLevel
| WarnLevel
| ErrorLevel
| FatalLevel
| PanicLevel
| NoLevel
| Disabled.

Definition isASCII (a : ascii) : bool := (N_of_ascii a <? 128)%N.

Definition lowerByte (a : ascii) : ascii :=
  let n := N_of_ascii a in
  if (65 <=? n)%N && (n <=? 90)%N then ascii_of_N (n + 32) else a.

Definition upperByte (a : ascii) : ascii :=
  let n := N_of_ascii a in
  if (97 <=? n)%N && (n <=? 122)%N then ascii_of_N (n - 32) else a.

Fixpoint mapBytes (f : ascii → ascii) (s : string) : string :=
  match s with
  | EmptyString => EmptyString
  | String a s' => String (f a) (mapBytes f s')
  end.

Fixpoint allBytes (f : ascii → bool) (s : string) : bool :=
  match s with
  | EmptyString => true
  | String a s' => f a && allBytes f s'
  end.

Section Levels.
Variable unicodeLower : string → string.

Definition ToLower (s : string) : string :=
  if allBytes isASCII s then mapBytes lowerByte s else unicodeLower s.

Definition parseLogLevel (level : string) : Level :=
  let l := ToLower level in
  if decide (l = "debug") then DebugLevel
  else if decide (l = "info") then InfoLevel
  else if decide (l = "warn" ∨ l = "warning") then WarnLevel
  else if decide (l = "error") then ErrorLevel
  else if decide (l = "fatal") then FatalLevel
  else if decide (l = "panic") then PanicLevel
  else if decide (l = "disabled" ∨ l = "none") then Disabled
  else InfoLevel.

(** [SetLogLevel]: the global level that [zerolog.SetGlobalLevel] is given. *)
Definition SetLogLevel (level : string) : Level := parseLogLevel level.
End Levels.

(** The names [parseLogLevel] knows. *)
Definition levelNames : list string :=
  ["debug"; "info"; "warn"; "warning"; "error"; "fatal"; "panic"; "disabled"; "none"].
End logging.

(** ** Package [client]: [NewHTTPClient]

    The [resty] client is a library object; the constructor is modelled by
    the calls it makes on [resty.New()], in order.  Durations are
    nanoseconds. *)

Module client.
Definition Second : Z := 1000000000.

Record HTTPClientConfig := mkConfig {
  BaseURL : string;
  Timeout : Z;
  Headers : option (gmap string string);
  RetryCount : Z;
  RetryWaitTime : Z;
  RetryMaxWaitTime : Z;
  Debug : bool
}.

Inductive RestyCall :=
| SetBaseURL (url : string)
| SetTimeout (d : Z)
| SetHeaders (h : gmap string string)
| SetRetryCount (n : Z)
| SetRetryWaitTime (d : Z)
| SetRetryMaxWaitTime (d : Z)
| SetDebug (b : bool)
| SetHeader (key value : string).

Definition NewHTTPClient (config : HTTPClientConfig) : list RestyCall :=
  (if decide (BaseURL config ≠ "") then [SetBaseURL (BaseURL config)] else [])
  ++ (let timeout := Timeout config in
      let timeout := if timeout =? 0 then 30 * Second else timeout in
      [SetTimeout timeout])
  ++ match Headers config with
     | Some h => [SetHeaders h]
     | None => []
     end
  ++ (if 0 <? RetryCount config then
        let retryWaitTime := RetryWaitTime config in
        let retryWaitTime := if retryWaitTime =? 0 then 1 * Second else retryWaitTime in
        let retryMaxWaitTime := RetryMaxWaitTime config in
        let retryMaxWaitTime :=
          if retryMaxWaitTime =? 0 then 30 * Second else retryMaxWaitTime in
        [SetRetryCount (RetryCount config);
         SetRetryWaitTime retryWaitTime;
         SetRetryMaxWaitTime retryMaxWaitTime]
      else [])
  ++ (if Debug config then [SetDebug true] else [])
  ++ [SetHeader "Content-Type" "application/json"].

Definition GetDefaultHTTPClient (baseURL : string) : list RestyCall :=
  NewHTTPClient
    (mkConfig baseURL (30 * Second)
       (Some (<["Content-Type" := "application/json"]>
                (<["Accept" := "application/json"]> ∅)))
       3 (1 * Second) (30 * Second) false).


End client.

(** ** Facts about the eviction engine *)

Section EngineFacts.
Context {K Val : Type} `{EqDecision K}.
Local Arguments lru.removeOldest : simpl never.
Implicit Types (l : list (K * Val)) (e : lru.Cache K Val) (key k : K).

Lemma without_filter key l :
  lru.without key l = filter (λ kv, kv.1 ≠ key) l.
Proof.
  induction l as [|[k v] l IH]; [done|]. simpl.
  rewrite filter_cons. simpl. rewrite IH.
  destruct (decide (k = key)), (decide (k ≠ key)); done.
Qed.

Lemma find_without_eq key l : lru.find key (lru.without key l) = None.
Proof.
  induction l as [|[k v] l IH]; [done|]. simpl.
  destruct (decide (k = key)); [done|]. simpl. by rewrite decide_False.
Qed.

Lemma find_without_ne key k l :
  k ≠ key → lru.find k (lru.without key l) = lru.find k l.
Proof.
  intros Hne. induction l as [|[k' v] l IH]; [done|]. simpl.
  destruct (decide (k' = key)) as [->|]; simpl.
  - by rewrite decide_False.
  - by rewrite IH.
Qed.

Lemma without_absent key l : lru.find key l = None → lru.without key l = l.
Proof.
  induction l as [|[k v] l IH]; [done|]. simpl.
  destruct (decide (k = key)); [done|]. intros Hl. by rewrite IH.
Qed.

Lemma length_without key l : (length (lru.without key l) ≤ length l)%nat.
Proof.
  induction l as [|[k v] l IH]; [done|]. simpl.
  destruct (decide (k = key)); simpl; lia.
Qed.

Lemma length_without_present key l :
  is_Some (lru.find key l) → (length (lru.without key l) < length l)%nat.
Proof.
  induction l as [|[k v] l IH]; simpl.
  - by intros [? ?].
  - destruct (decide (k = key)); simpl.
    + intros _. pose proof (length_without key l). lia.
    + intros Hs. specialize (IH Hs). lia.
Qed.

Lemma find_is_Some key l : is_Some (lru.find key l) ↔ key ∈ l.*1.
Proof.
  induction l as [|[k v] l IH]; simpl.
  - split; [by intros [? ?]|]. by intros ?%elem_of_nil.
  - rewrite elem_of_cons. destruct (decide (k = key)) as [->|].
    + split; [by left|]. by eexists.
    + rewrite IH. split; [by right|]. by intros [?|?].
Qed.

Lemma length_removelast l : length (removelast l) = pred (length l).
Proof.
  induction l as [|kv l IH]; [done|].
  destruct l as [|kv' l]; [done|].
  change (removelast (kv :: kv' :: l)) with (kv :: removelast (kv' :: l)).
  simpl length in *. by rewrite IH.
Qed.

Lemma find_removelast_Some k l (v : Val) :
  lru.find k (removelast l) = Some v → lru.find k l = Some v.
Proof.
  induction l as [|[k' v'] l IH]; [done|].
  destruct l as [|kv l]; [done|].
  change (removelast ((k', v') :: kv :: l)) with ((k', v') :: removelast (kv :: l)).
  simpl lru.find at 1 2. destruct (decide (k' = k)); [done|]. apply IH.
Qed.

(** Adding a key leaves it in the engine with the new value when the
    capacity is positive. *)
Lemma find_Add_eq key (v : Val) e :
  0 < lru.capacity e → lru.find key (lru.evictList (lru.Add key v e)) = Some v.
Proof.
  intros Hcap. unfold lru.Add.
  destruct (lru.find key (lru.evictList e)); simpl.
  - by rewrite decide_True.
  - destruct (lru.evictList e) as [|kv l]; simpl.
    + destruct (Z.ltb_spec (lru.capacity e) (Z.of_nat 1)); simpl; [lia|].
      by rewrite decide_True.
    + case_match; simpl; by rewrite decide_True.
Qed.

(** Adding a key never changes the entry of another key, though it may
    evict it. *)
Lemma find_Add_ne key k (v w : Val) e :
  k ≠ key →
  lru.find k (lru.evictList (lru.Add key v e)) = Some w →
  lru.find k (lru.evictList e) = Some w.
Proof.
  intros Hne. unfold lru.Add.
  destruct (lru.find key (lru.evictList e)); simpl.
  - rewrite decide_False by done. by rewrite find_without_ne.
  - case_match.
    + unfold lru.removeOldest. intros Hf%find_removelast_Some.
      simpl in Hf. by rewrite decide_False in Hf.
    + simpl. by rewrite decide_False.
Qed.

Lemma find_without_Some key k l (w : Val) :
  lru.find k (lru.without key l) = Some w → lru.find k l = Some w.
Proof.
  destruct (decide (k = key)) as [->|Hne].
  - by rewrite find_without_eq.
  - by rewrite find_without_ne.
Qed.

Lemma find_Add_eq_inv key (v w : Val) e :
  lru.find key (lru.evictList (lru.Add key v e)) = Some w → w = v.
Proof.
  unfold lru.Add. destruct (lru.find key (lru.evictList e)); simpl.
  - rewrite decide_True by done. congruence.
  - case_match.
    + unfold lru.removeOldest. intros Hf%find_removelast_Some.
      simpl in Hf. rewrite decide_True in Hf by done. congruence.
    + simpl. rewrite decide_True by done. congruence.
Qed.

(** Without eviction, adding a key leaves the other keys in place. *)
Lemma find_Add_ne_kept key k (v : Val) e :
  k ≠ key →
  is_Some (lru.find key (lru.evictList e)) ∨ lru.Len e < lru.capacity e →
  lru.find k (lru.evictList (lru.Add key v e)) = lru.find k (lru.evictList e).
Proof.
  intros Hne Hkept. unfold lru.Add.
  destruct (lru.find key (lru.evictList e)) eqn:Hf.
  - simpl. rewrite decide_False by done. by rewrite find_without_ne.
  - destruct Hkept as [[? ?]|Hlen]; [done|]. unfold lru.Len in Hlen.
    case_match eqn:Hc.
    + apply Z.ltb_lt in Hc. simpl length in Hc. lia.
    + simpl. by rewrite decide_False.
Qed.

Lemma find_Add_eq_kept key (v : Val) e :
  is_Some (lru.find key (lru.evictList e)) ∨ lru.Len e < lru.capacity e →
  lru.find key (lru.evictList (lru.Add key v e)) = Some v.
Proof.
  intros Hkept. unfold lru.Add.
  destruct (lru.find key (lru.evictList e)) eqn:Hf.
  - simpl. by rewrite decide_True.
  - destruct Hkept as [[? ?]|Hlen]; [done|]. unfold lru.Len in Hlen.
    case_match eqn:Hc.
    + apply Z.ltb_lt in Hc. simpl length in Hc. lia.
    + simpl. by rewrite decide_True.
Qed.

(** Adding a key that the engine does not hold: one more entry, unless the
    engine was full. *)
Lemma Len_Add_absent key (v : Val) e :
  lru.find key (lru.evictList e) = None →
  lru.Len (lru.Add key v e)
  = if lru.capacity e <? lru.Len e + 1 then lru.Len e else lru.Len e + 1.
Proof.
  intros Hf. unfold lru.Add, lru.Len. rewrite Hf. cbn [lru.evictList lru.capacity].
  replace (Z.of_nat (length ((key, v) :: lru.evictList e)))
    with (Z.of_nat (length (lru.evictList e)) + 1) by (simpl length; lia).
  case_match.
  - unfold lru.removeOldest. rewrite length_removelast. simpl length. lia.
  - simpl length. lia.
Qed.

Lemma capacity_Add key (v : Val) e :
  lru.capacity (lru.Add key v e) = lru.capacity e.
Proof. unfold lru.Add. by case_match. Qed.

Lemma capacity_Get key e : lru.capacity (lru.Get key e).1 = lru.capacity e.
Proof. unfold lru.Get. by case_match. Qed.

Lemma bounded_New size e : lru.New size = Some e → lru.bounded e.
Proof.
  unfold lru.New. case_match eqn:Hs; [done|]. intros [= <-].
  unfold lru.bounded, lru.Len. simpl. lia.
Qed.

Lemma bounded_Add key (v : Val) e : lru.bounded e → lru.bounded (lru.Add key v e).
Proof.
  intros [Hcap Hlen]. split; [by rewrite capacity_Add|].
  unfold lru.Len in *. unfold lru.Add.
  destruct (lru.find key (lru.evictList e)) eqn:Hf; simpl.
  - pose proof (length_without_present key (lru.evictList e)) as Hlt.
    rewrite Hf in Hlt. specialize (Hlt (mk_is_Some _ _ eq_refl)). lia.
  - case_match eqn:Hc.
    + unfold lru.removeOldest. rewrite length_removelast. simpl. lia.
    + apply Z.ltb_ge in Hc. simpl in Hc. simpl. lia.
Qed.

Lemma bounded_Get key e : lru.bounded e → lru.bounded (lru.Get key e).1.
Proof.
  intros [Hcap Hlen]. unfold lru.Get, lru.bounded, lru.Len in *.
  destruct (lru.find key (lru.evictList e)) eqn:Hf; simpl; [|done].
  split; [done|].
  pose proof (length_without_present key (lru.evictList e)) as Hlt.
  rewrite Hf in Hlt. specialize (Hlt (mk_is_Some _ _ eq_refl)). lia.
Qed.

Lemma bounded_Remove key e : lru.bounded e → lru.bounded (lru.Remove key e).
Proof.
  intros [Hcap Hlen]. unfold lru.Remove, lru.bounded, lru.Len in *. simpl.
  pose proof (length_without key (lru.evictList e)). lia.
Qed.

Lemma bounded_Purge e : lru.bounded e → lru.bounded (lru.Purge e).
Proof. intros [Hcap Hlen]. unfold lru.Purge, lru.bounded, lru.Len in *. simpl. lia. Qed.
End EngineFacts.

(** ** Facts about byte strings and [matchesPattern] *)

Section PatternFacts.
Implicit Types (p s key pattern rest : string) (a : ascii).

Lemma string_length_app p s :
  String.length (p +:+ s) = (String.length p + String.length s)%nat.
Proof. induction p as [|a p IH]; simpl; [done|]. by rewrite IH. Qed.

Lemma substring_0_app p s : String.substring 0 (String.length p) (p +:+ s) = p.
Proof.
  induction p as [|a p IH]; simpl.
  - by destruct s.
  - by rewrite IH.
Qed.

Lemma substring_0_prefix p key :
  String.substring 0 (String.length p) key = p ↔ ∃ rest, key = p +:+ rest.
Proof.
  split.
  - revert key. induction p as [|a p IH]; intros key Hsub.
    + by exists key.
    + destruct key as [|b key]; simpl in Hsub; [done|].
      injection Hsub as -> Hsub. apply IH in Hsub as [rest ->]. by exists rest.
  - intros [rest ->]. apply substring_0_app.
Qed.

Lemma get_last p a : String.get (String.length p) (p +:+ String a "") = Some a.
Proof. induction p as [|b p IH]; simpl; done. Qed.

Lemma last_byte_inv pattern a :
  String.get (String.length pattern - 1) pattern = Some a →
  ∃ p, pattern = p +:+ String a "".
Proof.
  induction pattern as [|b s IH]; intros Hget; [done|].
  destruct s as [|b' s].
  - simpl in Hget. injection Hget as ->. by exists "".
  - replace (String.length (String b (String b' s)) - 1)%nat
      with (S (String.length (String b' s) - 1)) in Hget by (simpl; lia).
    cbn [String.get] in Hget. apply IH in Hget as [p ->].
    by exists (String b p).
Qed.

(** A pattern that ends in a star matches the keys that start with
    what precedes the star. *)
Lemma matchesPattern_star key p :
  matchesPattern key (p +:+ "*") = true ↔ ∃ rest, key = p +:+ rest.
Proof.
  unfold matchesPattern. rewrite string_length_app. simpl String.length.
  replace (String.length p + 1 - 1)%nat with (String.length p) by lia.
  rewrite get_last, bool_decide_eq_true_2 by done.
  replace (0 <? String.length p + 1)%nat with true
    by (symmetry; apply Nat.ltb_lt; lia).
  cbn [andb]. rewrite substring_0_app.
  rewrite andb_true_iff, Nat.leb_le, String.eqb_eq. split.
  - intros [_ Hsub]. by apply substring_0_prefix.
  - intros [rest ->]. split; [rewrite string_length_app; lia|apply substring_0_app].
Qed.

(** Any other pattern matches the identical key only. *)
Lemma matchesPattern_plain key pattern :
  (∀ p, pattern ≠ p +:+ "*") →
  matchesPattern key pattern = true ↔ key = pattern.
Proof.
  intros Hplain. unfold matchesPattern.
  destruct (bool_decide _) eqn:Hlast.
  - apply bool_decide_eq_true_1 in Hlast.
    apply last_byte_inv in Hlast as [p ->]. by destruct (Hplain p).
  - rewrite andb_false_r. apply String.eqb_eq.
Qed.
End PatternFacts.

(** ** Facts about the cache operations *)

Section CacheFacts.
Context {V : Type}.
Implicit Types (c : LRUCache V) (key k pattern : string) (now ttl : Z).
Implicit Types (o : Call V) (calls : list (Z * Call V)).

Lemma run_app calls1 calls2 c :
  run (calls1 ++ calls2) c = run calls2 (run calls1 c).
Proof. apply foldl_app. Qed.

Lemma run_snoc calls now o c :
  run (calls ++ [(now, o)]) c = step now o (run calls c).
Proof. by rewrite run_app. Qed.

Lemma deleteKeys_cons key ks c :
  deleteKeys (key :: ks) c = deleteKeys ks (next (Delete key c)).
Proof. done. Qed.

Lemma bounded_deleteKeys ks c :
  lru.bounded (cache c) → lru.bounded (cache (deleteKeys ks c)).
Proof.
  revert c. induction ks as [|key ks IH]; intros c Hb; [done|].
  rewrite deleteKeys_cons. apply IH. simpl. by apply bounded_Remove.
Qed.

Lemma bounded_step now o c : lru.bounded (cache c) → lru.bounded (cache (step now o c)).
Proof.
  intros Hb. destruct o as [key|key v|key v ttl|key|pattern| |]; simpl.
  - unfold Get. pose proof (bounded_Get key (cache c) Hb) as Hg.
    destruct (lru.Get key (cache c)) as [e [item|]]; simpl in *; [|done].
    case_match; simpl; [by apply bounded_Remove|done].
  - by apply bounded_Add.
  - by apply bounded_Add.
  - by apply bounded_Remove.
  - by apply bounded_deleteKeys.
  - by apply bounded_Purge.
  - done.
Qed.

Lemma bounded_run calls c : lru.bounded (cache c) → lru.bounded (cache (run calls c)).
Proof.
  revert c. induction calls as [|[now o] calls IH]; intros c Hb; [done|].
  apply IH. by apply bounded_step.
Qed.

Lemma capacity_deleteKeys ks c :
  lru.capacity (cache (deleteKeys ks c)) = lru.capacity (cache c).
Proof.
  revert c. induction ks as [|key ks IH]; intros c; [done|].
  by rewrite deleteKeys_cons, IH.
Qed.

Lemma capacity_step now o c :
  lru.capacity (cache (step now o c)) = lru.capacity (cache c).
Proof.
  destruct o as [key|key v|key v ttl|key|pattern| |]; simpl;
    try done; try apply capacity_Add.
  - unfold Get. pose proof (capacity_Get key (cache c)) as Hg.
    destruct (lru.Get key (cache c)) as [e [item|]]; simpl in *; [|done].
    by case_match.
  - apply capacity_deleteKeys.
Qed.

Lemma capacity_run calls c :
  lru.capacity (cache (run calls c)) = lru.capacity (cache c).
Proof.
  revert c. induction calls as [|[now o] calls IH]; intros c; [done|].
  simpl. change (foldl _ ?s calls) with (run calls s).
  by rewrite IH, capacity_step.
Qed.

Lemma expired_true now (item : cacheItem V) :
  expired now item = true ↔ expiresAt item ≠ 0 ∧ expiresAt item < now.
Proof.
  unfold expired, IsZero, After.
  rewrite andb_true_iff, negb_true_iff, Z.eqb_neq, Z.ltb_lt. done.
Qed.

Lemma expired_false now (item : cacheItem V) :
  expired now item = false ↔ expiresAt item = 0 ∨ now ≤ expiresAt item.
Proof.
  unfold expired, IsZero, After.
  rewrite andb_false_iff, negb_false_iff, Z.eqb_eq, Z.ltb_ge. done.
Qed.

(** The three ways through [Get]. *)
Lemma Get_absent now key c :
  lru.find key (lru.evictList (cache c)) = None →
  Get now key c =
    mkOutcome None
      (mkLRUCache (cache c) (incMisses (stats c)) (ttlMap c))
      (mkLog "Cache miss" [("key", LStr key); ("cache_hit", LBool false)]).
Proof. intros Hf. unfold Get, lru.Get. by rewrite Hf. Qed.

Lemma Get_stale now key c item :
  lru.find key (lru.evictList (cache c)) = Some item →
  expired now item = true →
  Get now key c =
    mkOutcome None
      (mkLRUCache
         (lru.mk (lru.capacity (cache c)) (lru.without key (lru.evictList (cache c))))
         (incMisses (stats c)) (delete key (ttlMap c)))
      (mkLog "Cache expired" [("key", LStr key); ("cache_hit", LBool false)]).
Proof.
  intros Hf He. unfold Get, lru.Get. rewrite Hf, He.
  unfold lru.Remove. cbn [lru.evictList lru.capacity lru.without].
  rewrite decide_True by done.
  by rewrite (without_absent key) by apply find_without_eq.
Qed.

Lemma Get_fresh now key c item :
  lru.find key (lru.evictList (cache c)) = Some item →
  expired now item = false →
  Get now key c =
    mkOutcome (Some (value item))
      (mkLRUCache
         (lru.mk (lru.capacity (cache c))
            ((key, item) :: lru.without key (lru.evictList (cache c))))
         (incHits (stats c)) (ttlMap c))
      (mkLog "Cache hit" [("key", LStr key); ("cache_hit", LBool true)]).
Proof. intros Hf He. unfold Get, lru.Get. by rewrite Hf, He. Qed.

Lemma entry_deleteKeys ks key c w :
  entry key (deleteKeys ks c) = Some w → entry key c = Some w.
Proof.
  revert c. induction ks as [|k ks IH]; intros c; [done|].
  rewrite deleteKeys_cons. intros Hf%IH. by apply find_without_Some in Hf.
Qed.

(** Frame: a call that does not store under [key] leaves the entry of
    [key] as it is, or removes it. *)
Lemma entry_step_frame now o key c w :
  ¬ stores key o →
  entry key (step now o c) = Some w → entry key c = Some w.
Proof.
  intros Hns. unfold entry.
  destruct o as [k|k v|k v ttl|k|pattern| |]; cbn [step].
  - destruct (lru.find k (lru.evictList (cache c))) as [item|] eqn:Hf.
    + destruct (expired now item) eqn:He.
      * rewrite (Get_stale now k c item Hf He). apply find_without_Some.
      * rewrite (Get_fresh now k c item Hf He). simpl.
        destruct (decide (k = key)) as [->|]; [congruence|].
        apply find_without_Some.
    + by rewrite (Get_absent now k c Hf).
  - destruct (decide (k = key)) as [->|Hne]; [by destruct Hns|].
    cbn [next Set_ cache]. by apply find_Add_ne.
  - destruct (decide (k = key)) as [->|Hne]; [by destruct Hns|].
    cbn [next SetWithTTL cache]. by apply find_Add_ne.
  - apply find_without_Some.
  - apply entry_deleteKeys.
  - done.
  - done.
Qed.

Lemma entry_run_frame calls key c w :
  Forall (λ tc, ¬ stores key tc.2) calls →
  entry key (run calls c) = Some w → entry key c = Some w.
Proof.
  intros Hcalls. revert c.
  induction Hcalls as [|[now o] calls Ho _ IH]; intros c; [done|].
  intros Hw%IH. by apply entry_step_frame in Hw.
Qed.

(** An entry without deadline survives every read. *)
Lemma entry_step_read now o key c (v : V) :
  isRead o →
  entry key c = Some (mkItem v 0) → entry key (step now o c) = Some (mkItem v 0).
Proof.
  unfold entry. destruct o as [k| | | | | |]; try done. intros _ Hkey.
  cbn [step].
  destruct (lru.find k (lru.evictList (cache c))) as [item|] eqn:Hf.
  - destruct (expired now item) eqn:He.
    + rewrite (Get_stale now k _ item Hf He). cbn [next cache lru.evictList].
      destruct (decide (key = k)) as [<-|Hne].
      * rewrite Hkey in Hf. injection Hf as <-. done.
      * by rewrite find_without_ne.
    + rewrite (Get_fresh now k _ item Hf He). cbn [next cache lru.evictList].
      simpl. destruct (decide (k = key)) as [->|Hne]; [congruence|].
      by rewrite find_without_ne.
  - by rewrite (Get_absent now k _ Hf).
Qed.

Lemma entry_run_reads reads key c (v : V) :
  Forall (λ tc, isRead tc.2) reads →
  entry key c = Some (mkItem v 0) → entry key (run reads c) = Some (mkItem v 0).
Proof.
  intros Hreads. revert c.
  induction Hreads as [|[now o] reads Ho _ IH]; intros c Hkey; [done|].
  apply IH. by apply entry_step_read.
Qed.

Lemma elem_of_keysToDelete pattern key c :
  key ∈ keysToDelete pattern c ↔ targeted pattern key c.
Proof.
  unfold keysToDelete, targeted, inIndex.
  rewrite list_elem_of_filter, list_elem_of_fmap. split.
  - intros [Hm ([k t] & -> & Hin%elem_of_map_to_list)]. by eauto.
  - intros [[t Ht] Hm]. split; [done|].
    exists (key, t). split; [done|]. by apply elem_of_map_to_list.
Qed.

Lemma NoDup_keysToDelete pattern c : NoDup (keysToDelete pattern c).
Proof. apply NoDup_filter, NoDup_fst_map_to_list. Qed.

Lemma stats_deleteKeys ks c : stats (deleteKeys ks c) = stats c.
Proof.
  revert c. induction ks as [|k ks IH]; intros c; [done|].
  by rewrite deleteKeys_cons, IH.
Qed.

Lemma ttlMap_deleteKeys ks key c :
  ttlMap (deleteKeys ks c) !! key
  = if decide (key ∈ ks) then None else ttlMap c !! key.
Proof.
  revert c. induction ks as [|k ks IH]; intros c.
  - by rewrite decide_False by apply not_elem_of_nil.
  - rewrite deleteKeys_cons, IH. cbn [next Delete ttlMap].
    destruct (decide (key ∈ ks)) as [Hin|Hnin].
    + rewrite decide_True; [done|]. by right.
    + destruct (decide (key = k)) as [->|Hne].
      * rewrite lookup_delete_eq. rewrite decide_True; [done|]. by left.
      * rewrite lookup_delete_ne by done.
        rewrite decide_False; [done|]. by intros [?|?]%elem_of_cons.
Qed.

Lemma evictList_deleteKeys ks c :
  lru.evictList (cache (deleteKeys ks c))
  = filter (λ kv, kv.1 ∉ ks) (lru.evictList (cache c)).
Proof.
  revert c. induction ks as [|k ks IH]; intros c.
  - simpl. induction (lru.evictList (cache c)) as [|kv l IHl]; [done|].
    rewrite filter_cons_True by apply not_elem_of_nil. by rewrite <-IHl.
  - rewrite deleteKeys_cons, IH. cbn [next Delete cache lru.Remove lru.evictList].
    rewrite without_filter, list_filter_filter. apply list_filter_iff.
    intros [k' v]. simpl. rewrite not_elem_of_cons. tauto.
Qed.

Lemma entry_deleteKeys_eq ks key c :
  entry key (deleteKeys ks c) = if decide (key ∈ ks) then None else entry key c.
Proof.
  revert c. induction ks as [|k ks IH]; intros c.
  - by rewrite decide_False by apply not_elem_of_nil.
  - rewrite deleteKeys_cons, IH. unfold entry.
    cbn [next Delete cache lru.Remove lru.evictList].
    destruct (decide (key ∈ ks)) as [Hin|Hnin].
    + rewrite decide_True; [done|]. by right.
    + destruct (decide (key = k)) as [->|Hne].
      * rewrite find_without_eq. rewrite decide_True; [done|]. by left.
      * rewrite find_without_ne by done.
        rewrite decide_False; [done|]. by intros [?|?]%elem_of_cons.
Qed.

(** Each collected key that the index holds makes the index one
    smaller. *)
Lemma size_deleteKeys ks c :
  NoDup ks → (∀ k, k ∈ ks → inIndex k c) →
  (size (ttlMap (deleteKeys ks c)) + length ks = size (ttlMap c))%nat.
Proof.
  revert c. induction ks as [|k ks IH]; intros c Hnd Hin; [simpl; lia|].
  apply NoDup_cons in Hnd as [Hk Hnd].
  rewrite deleteKeys_cons, length_cons, Nat.add_succ_r, IH; [|done|].
  - cbn [next Delete ttlMap].
    destruct (Hin k) as [t Ht]; [by left|].
    pose proof (map_size_delete_Some k (ttlMap c)) as Hsz.
    unfold inIndex in Hin. rewrite Ht in Hsz.
    specialize (Hsz (mk_is_Some _ _ eq_refl)).
    assert (size (ttlMap c) ≠ 0%nat).
    { intros Hz%map_size_empty_inv. by rewrite Hz in Ht. }
    lia.
  - intros k' Hk'. unfold inIndex. cbn [next Delete ttlMap].
    rewrite lookup_delete_ne by (intros ->; done). apply Hin. by right.
Qed.

(** Frame for the index: a call that does not store under [key] never
    puts [key] into the expiration index. *)
Lemma index_step_frame now o key c :
  ¬ stores key o → inIndex key (step now o c) → inIndex key c.
Proof.
  intros Hns. unfold inIndex.
  destruct o as [k|k v|k v ttl|k|pattern| |]; cbn [step].
  - destruct (lru.find k (lru.evictList (cache c))) as [item|] eqn:Hf.
    + destruct (expired now item) eqn:He.
      * rewrite (Get_stale now k c item Hf He). cbn [next ttlMap].
        rewrite lookup_delete_is_Some. by intros [_ ?].
      * by rewrite (Get_fresh now k c item Hf He).
    + by rewrite (Get_absent now k c Hf).
  - cbn [next Set_ ttlMap]. rewrite lookup_delete_is_Some. by intros [_ ?].
  - destruct (decide (k = key)) as [->|Hne]; [by destruct Hns|].
    cbn [next SetWithTTL ttlMap]. by rewrite lookup_insert_ne.
  - cbn [next Delete ttlMap]. rewrite lookup_delete_is_Some. by intros [_ ?].
  - cbn [next DeleteByPattern]. rewrite ttlMap_deleteKeys.
    case_decide; [by intros [? ?]|done].
  - cbn [next Clear ttlMap]. rewrite lookup_empty. by intros [? ?].
  - done.
Qed.

(** Every call keeps the index within the engine, unless it makes the
    engine evict. *)
Lemma indexInEngine_step now o c :
  indexInEngine c → ¬ evicts o c → indexInEngine (step now o c).
Proof.
  intros Hinv Hne. unfold indexInEngine, inIndex, inEngine, lru.Contains in *.
  assert (Hkept : ∀ k, stores k o →
            is_Some (lru.find k (lru.evictList (cache c)))
            ∨ lru.Len (cache c) < lru.capacity (cache c)).
  { intros k Hst.
    destruct (lru.find k (lru.evictList (cache c))) as [w|] eqn:Hf; [by left; eexists|].
    destruct (Z.lt_ge_cases (lru.Len (cache c)) (lru.capacity (cache c))); [by right|].
    destruct Hne. exists k. split_and!; [done| |lia].
    unfold inEngine, lru.Contains. rewrite Hf. by intros [? ?]. }
  destruct o as [k|k v|k v ttl|k|pattern| |]; cbn [step].
  - destruct (lru.find k (lru.evictList (cache c))) as [item|] eqn:Hf.
    + destruct (expired now item) eqn:He.
      * rewrite (Get_stale now k c item Hf He). cbn [next ttlMap cache lru.evictList].
        intros key [Hk Hin]%lookup_delete_is_Some.
        rewrite find_without_ne by done. by apply Hinv.
      * rewrite (Get_fresh now k c item Hf He). cbn [next ttlMap cache lru.evictList].
        intros key Hin. simpl. destruct (decide (k = key)); [by eexists|].
        rewrite find_without_ne by done. by apply Hinv.
    + rewrite (Get_absent now k c Hf). apply Hinv.
  - cbn [next Set_ ttlMap cache]. intros key [Hk Hin]%lookup_delete_is_Some.
    rewrite find_Add_ne_kept; [by apply Hinv|done|]. by apply Hkept.
  - cbn [next SetWithTTL ttlMap cache]. intros key Hin.
    destruct (decide (key = k)) as [->|Hk].
    + rewrite find_Add_eq_kept; [by eexists|]. by apply Hkept.
    + rewrite lookup_insert_ne in Hin by done.
      rewrite find_Add_ne_kept; [by apply Hinv|done|]. by apply Hkept.
  - cbn [next Delete ttlMap cache lru.Remove lru.evictList].
    intros key [Hk Hin]%lookup_delete_is_Some.
    rewrite find_without_ne by done. by apply Hinv.
  - cbn [next DeleteByPattern]. intros key.
    rewrite ttlMap_deleteKeys. pose proof (entry_deleteKeys_eq (keysToDelete pattern c) key c) as He.
    unfold entry in He. rewrite He.
    case_decide; [by intros [? ?]|]. apply Hinv.
  - cbn [next Clear ttlMap]. intros key. rewrite lookup_empty. by intros [? ?].
  - apply Hinv.
Qed.

(** The entries without deadline stay outside the index, as long as no
    [SetWithTTL] computes the zero instant as deadline. *)
Lemma plainUntracked_step now o c :
  realDeadline now o → plainUntracked c → plainUntracked (step now o c).
Proof.
  intros Hreal Hinv key item Hentry Hzero.
  assert (Hframe : ¬ stores key o → ¬ inIndex key (step now o c)).
  { intros Hns Hin%index_step_frame; [|done].
    apply entry_step_frame in Hentry; [|done]. by eapply Hinv. }
  destruct o as [k|k v|k v ttl|k|pattern| |];
    try (apply Hframe; by intros [? _]).
  - destruct (decide (k = key)) as [->|Hne].
    + unfold inIndex. cbn [step next Set_ ttlMap].
      rewrite lookup_delete_eq. by intros [? ?].
    + apply Hframe. intros [_ ?]. simpl in *. congruence.
  - destruct (decide (k = key)) as [->|Hne].
    + unfold entry in Hentry. cbn [step next SetWithTTL cache] in Hentry.
      apply find_Add_eq_inv in Hentry as ->. by destruct Hreal.
    + apply Hframe. intros [_ ?]. simpl in *. congruence.
Qed.

Lemma plainUntracked_run calls c :
  Forall (λ tc, realDeadline tc.1 tc.2) calls →
  plainUntracked c → plainUntracked (run calls c).
Proof.
  intros Hcalls. revert c.
  induction Hcalls as [|[now o] calls Ho _ IH]; intros c Hinv; [done|].
  apply IH. by apply plainUntracked_step.
Qed.

Lemma NewLRUCache_Some size :
  0 < size →
  NewLRUCache (V:=V) size = Some (newCache size).
Proof.
  intros Hs. unfold NewLRUCache, lru.New.
  destruct (Z.leb_spec size 0); [lia|done].
Qed.

Lemma NewLRUCache_inv size c :
  NewLRUCache size = Some c →
  0 < size ∧ c = newCache size.
Proof.
  unfold NewLRUCache, lru.New.
  destruct (Z.leb_spec size 0); [done|]. by intros [= <-].
Qed.

(** A non-positive capacity is refused by the constructor. *)
Lemma NewLRUCache_None size : size ≤ 0 → NewLRUCache (V:=V) size = None.
Proof.
  intros Hs. unfold NewLRUCache, lru.New.
  destruct (Z.leb_spec size 0); [done|lia].
Qed.

Lemma reachable_bounded c : reachable c → lru.bounded (cache c).
Proof.
  intros (size & c0 & calls & Hnew & ->). apply bounded_run.
  apply NewLRUCache_inv in Hnew as [Hs ->]. unfold lru.bounded, lru.Len. simpl. lia.
Qed.

Lemma wrap64_int64 z : int64 (wrap64 z).
Proof.
  unfold int64, wrap64.
  pose proof (Z.mod_pos_bound (z + 2 ^ 63) (2 ^ 64)). lia.
Qed.

(** The counters of a reachable cache are [int64] values. *)
Lemma reachable_counters c :
  reachable c → int64 (Hits (stats c)) ∧ int64 (Misses (stats c)).
Proof.
  intros (size & c0 & calls & [_ ->]%NewLRUCache_inv & ->).
  induction calls as [|[now o] calls IH] using rev_ind; [done|].
  rewrite run_snoc. destruct IH as [Hh Hm].
  destruct o as [k|k v|k v ttl|k|pattern| |]; cbn [step]; try done.
  - destruct (lru.find k (lru.evictList (cache (run calls (newCache size)))))
      as [item|] eqn:Hf.
    + destruct (expired now item) eqn:He.
      * rewrite (Get_stale now k _ item Hf He). split; [done|apply wrap64_int64].
      * rewrite (Get_fresh now k _ item Hf He). split; [apply wrap64_int64|done].
    + rewrite (Get_absent now k _ Hf). split; [done|apply wrap64_int64].
  - cbn [next DeleteByPattern]. by rewrite stats_deleteKeys.
Qed.

(** In a cache built by calls whose deadlines are real, an entry without
    deadline survives every [DeleteByPattern]. *)
Lemma DeleteByPattern_keeps_plain size calls pattern key item :
  Forall (λ tc, realDeadline tc.1 tc.2) calls →
  let c := run calls (newCache size) in
  entry key c = Some item → expiresAt item = 0 →
  entry key (next (DeleteByPattern pattern c)) = Some item.
Proof.
  intros Hcalls c Hentry Hzero.
  assert (Hinv : plainUntracked c).
  { apply plainUntracked_run; [done|]. by intros k w. }
  cbn [next DeleteByPattern]. rewrite entry_deleteKeys_eq, decide_False; [done|].
  intros [Hin _]%elem_of_keysToDelete. by eapply Hinv.
Qed.

(** Stores under distinct keys fill the cache one entry at a time, up to
    its capacity. *)
Lemma distinct_stores_fill size calls :
  0 < size →
  Forall (λ tc, isSet tc.2) calls →
  NoDup (omap (λ tc, callKey tc.2) calls) →
  let c := run calls (newCache size) in
  (∀ k, inEngine k c → k ∈ omap (λ tc, callKey tc.2) calls) ∧
  lru.Len (cache c) = Z.min (Z.of_nat (length calls)) size.
Proof.
  intros Hsize. induction calls as [|[now o] calls IH] using rev_ind.
  - intros _ _. split; [by intros k [? ?]|]. unfold lru.Len. simpl. lia.
  - intros [Hsets [Ho _]%Forall_cons]%Forall_app.
    rewrite omap_app. intros (Hnd & Hfresh & _)%NoDup_app.
    rewrite run_snoc, length_app. simpl length.
    destruct (IH Hsets Hnd) as [Hin Hlen]. clear IH.
    set (c := run calls (newCache size)) in *.
    assert (Hcap : lru.capacity (cache c) = size) by apply capacity_run.
    assert (Hadd : ∀ k item,
              callKey o = Some k →
              (∀ k', is_Some (lru.find k' (lru.evictList (lru.Add k item (cache c)))) →
                     k' ∈ omap (λ tc, callKey tc.2) calls ++ [k]) ∧
              lru.Len (lru.Add k item (cache c))
              = Z.min (Z.of_nat (length calls + 1)) size).
    { intros k item Hk.
      assert (Hf : lru.find k (lru.evictList (cache c)) = None).
      { destruct (lru.find k (lru.evictList (cache c))) as [w|] eqn:Hf; [|done].
        destruct (Hfresh k).
        - apply Hin. unfold inEngine, lru.Contains. by rewrite Hf.
        - simpl. rewrite Hk. by left. }
      split.
      - intros k' [w Hw]. destruct (decide (k' = k)) as [->|Hne].
        + apply elem_of_app. right. by left.
        + apply elem_of_app. left. apply Hin.
          apply find_Add_ne in Hw; [|done]. unfold inEngine, lru.Contains.
          by rewrite Hw.
      - rewrite (Len_Add_absent k item (cache c) Hf), Hcap, Hlen.
        destruct (Z.ltb_spec size (Z.min (Z.of_nat (length calls)) size + 1)); lia. }
    destruct o as [k|k v|k v ttl|k|pattern| |]; try done.
    + apply (Hadd k (mkItem v 0) eq_refl).
    + apply (Hadd k (mkItem v (TimeAdd now ttl)) eq_refl).
Qed.

Lemma reachable_step now o c : reachable c → reachable (step now o c).
Proof.
  intros (size & c0 & calls & Hnew & ->).
  exists size, c0, (calls ++ [(now, o)]). by rewrite run_snoc.
Qed.
End CacheFacts.

(** ** Facts about callers that run alone *)

Section AloneFacts.
Context {V : Type}.
Implicit Types (c : LRUCache V) (tr : list LogEvent) (key pattern : string).

Lemma runAlone_deleteKeysP ks (k : Prog V (Reply V)) c tr :
  runAlone (deleteKeysP ks k) (c, tr) = runAlone k (deleteKeys ks c, tr).
Proof.
  revert c. induction ks as [|key ks IH]; intros c; [done|].
  cbn [deleteKeysP runAlone perform fst snd]. rewrite IH.
  by rewrite deleteKeys_cons.
Qed.

Lemma runAlone_GetP now key c tr :
  runAlone (GetP now key) (c, tr)
  = (ReplyGet (ret (Get now key c)),
     (next (Get now key c), tr ++ [logged (Get now key c)])).
Proof.
  unfold GetP. cbn [runAlone perform fst snd]. unfold lru.Get.
  destruct (lru.find key (lru.evictList (cache c))) as [item|] eqn:Hf.
  - cbn [fst snd]. destruct (expired now item) eqn:He.
    + rewrite (Get_stale now key c item Hf He).
      cbn [runAlone perform fst snd cache stats ttlMap ret next logged
           Hits Misses Size].
      unfold lru.Remove. cbn [lru.evictList lru.capacity lru.without].
      rewrite decide_True by done.
      by rewrite (without_absent key) by apply find_without_eq.
    + by rewrite (Get_fresh now key c item Hf He).
  - rewrite (Get_absent now key c Hf). cbn [fst snd]. by destruct c.
Qed.

(** A call whose steps are taken in a row does what the sequential
    operation does: same reply, same state, same log. *)
Lemma runAlone_callP now (o : Call V) c tr :
  runAlone (callP now o) (c, tr)
  = (replyOf now o c, (step now o c, tr ++ logOf now o c)).
Proof.
  destruct o as [key|key v|key v ttl|key|pattern| |]; cbn [callP replyOf logOf step].
  - apply runAlone_GetP.
  - done.
  - done.
  - done.
  - unfold DeleteByPatternP. cbn [runAlone perform fst snd].
    by rewrite runAlone_deleteKeysP.
  - done.
  - cbn [StatsP runAlone perform fst snd]. by rewrite app_nil_r.
Qed.
End AloneFacts.

(** ** The properties of the specification *)

(** Settles the comparisons of keys met while evaluating the engine. *)
Ltac decide_keys :=
  repeat (first [rewrite decide_True by done | rewrite decide_False by done]; simpl).

Section Properties.
Context {V : Type}.
Implicit Types (c : LRUCache V) (key k pattern : string) (now ttl : Z).
Implicit Types (o : Call V) (calls : list (Z * Call V)).

(** C4 (capacity invariant).  On a cache constructed with a capacity
    [size > 0], after every call of a sequence of [Set] and [SetWithTTL]
    calls with distinct keys, [Stats().Size] is at most [size]: it is the
    number of calls made so far, or [size] once that many were made. *)
Theorem capacity_invariant size calls :
  0 < size →
  Forall (λ tc, isSet tc.2) calls →
  NoDup (omap (λ tc, callKey tc.2) calls) →
  ∃ c0 : LRUCache V,
    NewLRUCache size = Some c0 ∧
    ∀ n, Size (statsOf (run (take n calls) c0)) ≤ size ∧
         Size (statsOf (run (take n calls) c0))
         = Z.min (Z.of_nat (length (take n calls))) size.
Proof.
  intros Hsize Hsets Hnd. exists (newCache size).
  split; [by apply NewLRUCache_Some|]. intros n.
  assert (Hnd' : NoDup (omap (λ tc, callKey tc.2) (take n calls))).
  { rewrite <-(take_drop n calls), omap_app in Hnd.
    by apply NoDup_app in Hnd as [? _]. }
  destruct (distinct_stores_fill size (take n calls) Hsize
              (Forall_take _ n _ Hsets) Hnd') as [_ Hlen].
  unfold statsOf, Stats_. cbn [fst Size]. lia.
Qed.

(** C9.  [Clear] empties the engine and the expiration index, so that
    [Stats().Size] is 0 afterwards, and leaves the hit and miss counters
    as they were. *)
Theorem Clear_frame c :
  let c' := next (Clear c) in
  lru.evictList (cache c') = [] ∧
  ttlMap c' = ∅ ∧
  Size (statsOf c') = 0 ∧
  Hits (statsOf c') = Hits (statsOf c) ∧
  Misses (statsOf c') = Misses (statsOf c) ∧
  Hits (stats c') = Hits (stats c) ∧
  Misses (stats c') = Misses (stats c) ∧
  ret (Clear c) = nil.
Proof.
  intros c'. subst c'.
  unfold Clear, statsOf, Stats_, lru.Purge, lru.Len.
  cbn [next ret cache stats ttlMap fst lru.evictList Size Hits Misses length].
  split_and!; reflexivity.
Qed.

(** C5 (LRU order).  On a cache of capacity 2, after [Set(a,v1)],
    [Set(b,v2)], [Get(a)], [Set(c,v3)] with three distinct keys, exactly
    [b] has been evicted: [Get(a)] and [Get(c)] find the stored values and
    [Get(b)] finds nothing, whatever the clock reads. *)
Theorem lru_order (a b c : string) (v1 v2 v3 : V) (t1 t2 t3 t4 : Z) c0 :
  a ≠ b → a ≠ c → b ≠ c →
  NewLRUCache 2 = Some c0 →
  let s := run [(t1, CSet a v1); (t2, CSet b v2); (t3, CGet a); (t4, CSet c v3)] c0 in
  lru.keys (cache s) = [c; a] ∧
  ∀ t t' t'',
    ret (Get t a s) = Some v1 ∧
    ret (Get t c s) = Some v3 ∧
    ret (Get t b s) = None ∧
    ret (Get t' c (next (Get t a s))) = Some v3 ∧
    ret (Get t'' b (next (Get t' c (next (Get t a s))))) = None.
Proof.
  intros Hab Hac Hbc [_ ->]%NewLRUCache_inv s.
  set (ia := mkItem v1 0). set (ib := mkItem v2 0). set (ic := mkItem v3 0).
  assert (Hs : cache s = lru.mk 2 [(c, ic); (a, ia)]).
  { subst s. unfold run. cbn [foldl fst snd step].
    set (s2 := next (Set_ b v2 _)).
    assert (H2 : cache s2 = lru.mk 2 [(b, ib); (a, ia)]).
    { subst s2. cbn [next Set_ cache]. unfold lru.Add. simpl. by decide_keys. }
    rewrite (Get_fresh t3 a s2 ia); [| |done].
    2: { rewrite H2. simpl. by decide_keys. }
    cbn [next Set_ cache]. rewrite H2. unfold lru.Add. simpl. by decide_keys. }
  split; [by rewrite Hs|]. intros t t' t''.
  assert (Ha : Get t a s = mkOutcome (Some v1)
            (mkLRUCache (lru.mk 2 [(a, ia); (c, ic)]) (incHits (stats s)) (ttlMap s))
            (mkLog "Cache hit" [("key", LStr a); ("cache_hit", LBool true)])).
  { rewrite (Get_fresh t a s ia); [| |done]; rewrite Hs; simpl; by decide_keys. }
  set (sa := next (Get t a s)).
  assert (Hsa : cache sa = lru.mk 2 [(a, ia); (c, ic)]) by (subst sa; by rewrite Ha).
  assert (Hc : Get t' c sa = mkOutcome (Some v3)
            (mkLRUCache (lru.mk 2 [(c, ic); (a, ia)]) (incHits (stats sa)) (ttlMap sa))
            (mkLog "Cache hit" [("key", LStr c); ("cache_hit", LBool true)])).
  { rewrite (Get_fresh t' c sa ic); [| |done]; rewrite Hsa; simpl; by decide_keys. }
  split_and!.
  - by rewrite Ha.
  - rewrite (Get_fresh t c s ic); [done| |done]. rewrite Hs. simpl. by decide_keys.
  - rewrite (Get_absent t b s); [done|]. rewrite Hs. simpl. by decide_keys.
  - by rewrite Hc.
  - rewrite Get_absent; [done|]. rewrite Hc. simpl. by decide_keys.
Qed.

(** C6, as the code has it.  When the engine holds [key] with a deadline
    that lies strictly before the clock reading, [Get] returns not-found,
    removes the key from the engine and from the expiration index, and
    adds one to the miss counter (an [int64]: exactly one more unless the
    counter was at its maximum); the hit counter is untouched. *)
Theorem Get_expired now key c item :
  entry key c = Some item →
  expiresAt item ≠ 0 →
  expiresAt item < now →
  let r := Get now key c in
  ret r = None ∧
  ¬ inEngine key (next r) ∧
  ¬ inIndex key (next r) ∧
  Misses (stats (next r)) = wrap64 (Misses (stats c) + 1) ∧
  (int64 (Misses (stats c)) → Misses (stats c) ≠ MaxInt64 →
   Misses (stats (next r)) = Misses (stats c) + 1) ∧
  Hits (stats (next r)) = Hits (stats c) ∧
  msg (logged r) = "Cache expired".
Proof.
  intros Hf Hnz Hlt r. subst r.
  rewrite (Get_stale now key c item Hf) by (apply expired_true; done).
  cbn [ret next logged msg stats cache ttlMap incMisses Misses Hits].
  split_and!; try done.
  - unfold inEngine, lru.Contains. cbn [cache lru.evictList].
    rewrite find_without_eq. by intros [? ?].
  - unfold inIndex. cbn [ttlMap]. rewrite lookup_delete_eq. by intros [? ?].
  - intros Hrange Hmax. unfold wrap64, int64, MaxInt64 in *.
    rewrite Z.mod_small; lia.
Qed.

(** C7, as the code has it.  After [SetWithTTL(key, v, ttl)] with
    [ttl <= 0], made when the clock reads [t0], every later [Get(key)]
    returns not-found, whatever calls that do not store under [key] come
    in between, provided the clock then reads [t >= t0] and, when
    [ttl = 0], [t > t0].  The deadline [t0 + ttl] is assumed not to be
    the zero instant, which stands for no expiration. *)
Theorem SetWithTTL_nonpositive c key (v : V) ttl t0 calls t :
  ttl ≤ 0 →
  t0 + ttl ≠ 0 →
  Forall (λ tc, ¬ stores key tc.2) calls →
  t0 ≤ t →
  (ttl = 0 → t0 < t) →
  ret (Get t key (run calls (next (SetWithTTL t0 key v ttl c)))) = None.
Proof.
  intros Httl Hnz Hcalls Ht Ht0.
  set (s := next (SetWithTTL t0 key v ttl c)).
  assert (Hinv : ∀ w, entry key (run calls s) = Some w → expiresAt w = t0 + ttl).
  { intros w Hw%entry_run_frame; [|done].
    subst s. unfold entry in Hw. cbn [next SetWithTTL cache] in Hw.
    by apply find_Add_eq_inv in Hw as ->. }
  destruct (entry key (run calls s)) as [item|] eqn:Hf.
  - rewrite (Get_stale t key _ item Hf); [done|].
    apply expired_true. rewrite (Hinv item eq_refl). lia.
  - by rewrite (Get_absent t key _ Hf).
Qed.

(** C8.  Let [key] be stored by [SetWithTTL] in a reachable state, let any
    calls follow, and let [Set(key, v2)] come then.  After it the key has
    no deadline: it is out of the expiration index, its entry carries the
    zero instant, and [Get(key)] returns [v2] whatever the clock reads,
    also after any number of [Get] and [Stats] calls made at any time. *)
Theorem Set_clears_deadline c key (v v2 : V) ttl t0 between reads t :
  reachable c →
  Forall (λ tc, isRead tc.2) reads →
  let s := next (Set_ key v2 (run between (next (SetWithTTL t0 key v ttl c)))) in
  ttlMap s !! key = None ∧
  entry key s = Some (mkItem v2 0) ∧
  ret (Get t key (run reads s)) = Some v2.
Proof.
  intros Hc Hreads s.
  assert (Hs : entry key s = Some (mkItem v2 0)).
  { subst s. unfold entry. cbn [next Set_ cache]. apply find_Add_eq.
    rewrite capacity_run. cbn [next SetWithTTL cache]. rewrite capacity_Add.
    by apply reachable_bounded in Hc as [? _]. }
  split_and!; [apply lookup_delete_eq|done|].
  assert (Hinv : entry key (run reads s) = Some (mkItem v2 0))
    by (by apply entry_run_reads).
  by rewrite (Get_fresh t key _ _ Hinv).
Qed.

(** C3.  [DeleteByPattern] removes, from the engine and from the
    expiration index, exactly the keys that the index holds and the
    pattern matches, and changes nothing else: the other entries, their
    recency order and the counters stay.  A pattern [p*] matches the keys
    with prefix [p], any other pattern matches the identical key only.
    A key outside the index, such as one just stored by [Set], is never
    removed. *)
Theorem DeleteByPattern_exact pattern c :
  let c' := next (DeleteByPattern pattern c) in
  (∀ key, targeted pattern key c →
          entry key c' = None ∧ ttlMap c' !! key = None) ∧
  (∀ key, ¬ targeted pattern key c →
          entry key c' = entry key c ∧ ttlMap c' !! key = ttlMap c !! key) ∧
  lru.evictList (cache c')
    = filter (λ kv, ¬ targeted pattern kv.1 c) (lru.evictList (cache c)) ∧
  stats c' = stats c ∧
  (∀ key p, matchesPattern key (p +:+ "*") = true ↔ ∃ rest, key = p +:+ rest) ∧
  (∀ key, (∀ p, pattern ≠ p +:+ "*") →
          matchesPattern key pattern = true ↔ key = pattern) ∧
  (∀ key, ¬ inIndex key c → entry key c' = entry key c) ∧
  (∀ key (v : V) c1, ¬ inIndex key (next (Set_ key v c1))).
Proof.
  intros c'. subst c'. cbn [next DeleteByPattern]. split_and!.
  - intros key Ht%elem_of_keysToDelete.
    by rewrite entry_deleteKeys_eq, ttlMap_deleteKeys, !decide_True.
  - intros key Ht. rewrite <-elem_of_keysToDelete in Ht.
    by rewrite entry_deleteKeys_eq, ttlMap_deleteKeys, !decide_False.
  - rewrite evictList_deleteKeys. apply list_filter_iff.
    intros kv. by rewrite elem_of_keysToDelete.
  - apply stats_deleteKeys.
  - intros key p. apply matchesPattern_star.
  - intros key. apply matchesPattern_plain.
  - intros key Hout. rewrite entry_deleteKeys_eq, decide_False; [done|].
    by intros [? _]%elem_of_keysToDelete.
  - intros key v c1. unfold inIndex. cbn [next Set_ ttlMap].
    rewrite lookup_delete_eq. by intros [? ?].
Qed.

(** C2, as the code has it.  [DeleteByPattern] returns the [nil] error
    for every pattern and state; the number of keys it removed from the
    expiration index is the [count] field of the event it logs, and that
    number is the number of keys the index held that match. *)
Theorem DeleteByPattern_returns_nil pattern c :
  let r := DeleteByPattern pattern c in
  ret r = nil ∧
  logged r = mkLog "Cache delete by pattern"
               [("pattern", LStr pattern); ("count", LInt (removed pattern c))] ∧
  removed pattern c = Z.of_nat (length (keysToDelete pattern c)) ∧
  0 ≤ removed pattern c.
Proof.
  intros r.
  assert (Hcount : removed pattern c = Z.of_nat (length (keysToDelete pattern c))).
  { unfold removed. cbn [next DeleteByPattern].
    assert (Hin : ∀ k, k ∈ keysToDelete pattern c → inIndex k c)
      by (by intros k [? _]%elem_of_keysToDelete).
    pose proof (size_deleteKeys (keysToDelete pattern c) c
                  (NoDup_keysToDelete pattern c) Hin) as Hsz.
    lia. }
  split_and!; [done| |done|lia].
  subst r. cbn [logged DeleteByPattern]. by rewrite Hcount.
Qed.

(** C10, as the code has it.  [LRUCache] has no lock, and no operation
    acquires one; what holds is that callers who come one after the other,
    each operation taking all its steps before the next one starts, get
    exactly the replies, the states and the log of the sequential
    operations. *)
Theorem callers_in_turn calls c (tr : list LogEvent) :
  runSerial calls (c, tr) = runSeq calls (c, tr) ∧
  (runSeq calls (c, tr)).2.1 = run calls c.
Proof.
  unfold runSerial, runSeq, run.
  enough (∀ rs : list (Reply V),
    foldl (λ acc tc,
             let rσ := runAlone (callP tc.1 tc.2) acc.2 in
             (acc.1 ++ [rσ.1], rσ.2)) (rs, (c, tr)) calls
    = foldl (λ acc tc,
               (acc.1 ++ [replyOf tc.1 tc.2 acc.2.1],
                (step tc.1 tc.2 acc.2.1, acc.2.2 ++ logOf tc.1 tc.2 acc.2.1)))
        (rs, (c, tr)) calls ∧
    (foldl (λ acc tc,
               (acc.1 ++ [replyOf tc.1 tc.2 acc.2.1],
                (step tc.1 tc.2 acc.2.1, acc.2.2 ++ logOf tc.1 tc.2 acc.2.1)))
        (rs, (c, tr)) calls).2.1
    = foldl (λ c tc, step tc.1 tc.2 c) c calls) as Hall by apply Hall.
  revert c tr.
  induction calls as [|[now o] calls IH]; intros c tr rs; [done|].
  cbn [foldl fst snd]. rewrite runAlone_callP. cbn [fst snd]. apply IH.
Qed.
End Properties.

(** ** The properties at concrete inputs *)

Section Concrete.

(** C4 at capacity 2 and three stores. *)
Lemma capacity_invariant_witness :
  ∃ c0 : LRUCache Z,
    NewLRUCache 2 = Some c0 ∧
    ∀ n,
      let calls := [(10, CSet "a" 1); (11, CSetWithTTL "b" 2 5); (12, CSet "c" 3)] in
      Size (statsOf (run (take n calls) c0)) ≤ 2 ∧
      Size (statsOf (run (take n calls) c0))
      = Z.min (Z.of_nat (length (take n calls))) 2.
Proof.
  apply (capacity_invariant 2
           [(10, CSet "a" 1); (11, CSetWithTTL "b" 2 5); (12, CSet "c" 3)]).
  - lia.
  - repeat constructor.
  - apply (bool_decide_unpack _). vm_compute. exact I.
Defined.

(** C5 with the keys [a], [b], [c] and the values 1, 2, 3. *)
Lemma lru_order_witness :
  let s := run [(1, CSet "a" 1); (2, CSet "b" 2); (3, CGet "a"); (4, CSet "c" 3)]
             (newCache 2) in
  lru.keys (cache s) = ["c"; "a"] ∧
  ∀ t t' t'',
    ret (Get t "a" s) = Some 1 ∧
    ret (Get t "c" s) = Some 3 ∧
    ret (Get t "b" s) = None ∧
    ret (Get t' "c" (next (Get t "a" s))) = Some 3 ∧
    ret (Get t'' "b" (next (Get t' "c" (next (Get t "a" s))))) = None.
Proof.
  apply (lru_order "a" "b" "c" 1 2 3 1 2 3 4 (newCache 2));
    [discriminate|discriminate|discriminate|reflexivity].
Defined.

(** C6 at a deadline that has passed: stored at 100 for 5, read at 106. *)
Lemma Get_expired_witness :
  let c := run [(100, CSetWithTTL "k" 7 5)] (newCache 1) in
  let r := Get 106 "k" c in
  ret r = None ∧
  ¬ inEngine "k" (next r) ∧
  ¬ inIndex "k" (next r) ∧
  Misses (stats (next r)) = wrap64 (Misses (stats c) + 1) ∧
  (int64 (Misses (stats c)) → Misses (stats c) ≠ MaxInt64 →
   Misses (stats (next r)) = Misses (stats c) + 1) ∧
  Hits (stats (next r)) = Hits (stats c) ∧
  msg (logged r) = "Cache expired".
Proof.
  apply (Get_expired 106 "k" (run [(100, CSetWithTTL "k" 7 5)] (newCache 1))
           (mkItem 7 105)).
  - reflexivity.
  - simpl. lia.
  - simpl. lia.
Defined.

(** C6 as stated fails when the deadline equals the clock reading: the
    entry stored at 100 for 5 is still returned at 105, it stays in the
    engine and in the index, and the read counts as a hit. *)
Lemma Get_at_deadline_hits :
  let c := run [(100, CSetWithTTL "k" 7 5)] (newCache 1) in
  let r := Get 105 "k" c in
  NewLRUCache 1 = Some (newCache (V:=Z) 1) ∧
  entry "k" c = Some (mkItem 7 105) ∧
  105 ≤ 105 ∧
  ret r = Some 7 ∧
  inEngine "k" (next r) ∧
  inIndex "k" (next r) ∧
  Misses (stats (next r)) = Misses (stats c) ∧
  Hits (stats (next r)) = Hits (stats c) + 1.
Proof.
  split_and!; try reflexivity; try done.
  - by eexists.
  - by eexists.
Qed.

(** C7 with [ttl = -5]: stored at 100, read at 100 after other calls. *)
Lemma SetWithTTL_nonpositive_witness :
  ret (Get 100 "k"
         (run [(100, CGet "x"); (100, CSet "y" 1); (100, CGet "k")]
            (next (SetWithTTL 100 "k" 7 (-5) (newCache 2))))) = None.
Proof.
  apply (SetWithTTL_nonpositive (newCache 2) "k" 7 (-5) 100
           [(100, CGet "x"); (100, CSet "y" 1); (100, CGet "k")] 100).
  - lia.
  - lia.
  - repeat constructor; intros [Hs Hk]; simpl in *; (done || discriminate).
  - lia.
  - lia.
Defined.

(** C7 as stated fails for [ttl = 0] when the clock has not advanced:
    the value stored at 100 is returned by a [Get] that reads 100. *)
Lemma Get_same_instant_hits :
  NewLRUCache 2 = Some (newCache (V:=Z) 2) ∧
  0 ≤ 0 ∧
  ret (Get 100 "k" (next (SetWithTTL 100 "k" 7 0 (newCache 2)))) = Some 7.
Proof. split_and!; done. Qed.

(** C8 on a new cache of capacity 2: the deadline 110 is long past when
    the key is read at 1000. *)
Lemma Set_clears_deadline_witness :
  let s := next (Set_ "k" 8
                   (run [(105, CGet "k"); (106, CSet "j" 1)]
                      (next (SetWithTTL 100 "k" 7 10 (newCache 2))))) in
  ttlMap s !! "k" = None ∧
  entry "k" s = Some (mkItem 8 0) ∧
  ret (Get 1000 "k" (run [(120, CGet "k"); (130, CStats); (140, CGet "x")] s))
  = Some 8.
Proof.
  apply (Set_clears_deadline (newCache 2) "k" 7 8 10 100
           [(105, CGet "k"); (106, CSet "j" 1)]
           [(120, CGet "k"); (130, CStats); (140, CGet "x")] 1000).
  - exists 2, (newCache 2), []. split; reflexivity.
  - repeat constructor.
Defined.

(** C2 as stated fails: the caller receives the same [nil] whether one
    key was removed or none. *)
Lemma DeleteByPattern_count_not_returned :
  let c1 := run [(100, CSetWithTTL "user:1" 7 60)] (newCache (V:=Z) 4) in
  removed "user:*" c1 = 1 ∧
  removed "user:*" (newCache (V:=Z) 4) = 0 ∧
  ret (DeleteByPattern "user:*" c1) = nil ∧
  ret (DeleteByPattern "user:*" c1)
  = ret (DeleteByPattern "user:*" (newCache (V:=Z) 4)).
Proof. split_and!; by vm_compute. Qed.

(** C1 fails in the code: on a cache of capacity 1, storing [b] evicts
    [a] from the engine, but [a] stays in the expiration index. *)
Lemma eviction_leaves_index_entry :
  let c := run [(100, CSetWithTTL "a" 1 60); (101, CSetWithTTL "b" 2 60)]
             (newCache (V:=Z) 1) in
  NewLRUCache 1 = Some (newCache (V:=Z) 1) ∧
  lru.keys (cache c) = ["b"] ∧
  ttlMap c !! "a" = Some 160 ∧
  inIndex "a" c ∧
  ¬ inEngine "a" c.
Proof.
  split_and!; try by vm_compute.
  - by eexists.
  - intros [? ?]. done.
Qed.

(** C10 as stated fails: two callers of [Get] on an absent key whose steps
    alternate both load the miss counter before either stores it; both are
    told not-found, and one miss is counted, where any order of the two
    calls counts two. *)
Lemma concurrent_Gets_lose_a_miss :
  let pool := [callP 100 (CGet "x"); callP 100 (CGet "x")] in
  let r := interleave [0; 1; 0; 1; 0; 1; 0; 1]%nat pool (newCache (V:=Z) 2, []) in
  r.1 = [Done (ReplyGet None); Done (ReplyGet None)] ∧
  Misses (stats r.2.1) = 1 ∧
  Misses (stats (run [(100, CGet "x"); (100, CGet "x")] (newCache (V:=Z) 2))) = 2.
Proof. split_and!; by vm_compute. Qed.

(** The engine and the index are not updated as one unit either: a
    [SetWithTTL] and a [Set] of one key can leave an entry without deadline
    whose key is in the index, which neither order of the two calls does. *)
Lemma concurrent_sets_split_the_state :
  let pool := [callP 100 (CSetWithTTL "k" 1 50); callP 100 (CSet "k" 2)] in
  let r := interleave [0; 1; 1; 0; 0; 1; 0; 1]%nat pool (newCache (V:=Z) 2, []) in
  r.1 = [Done (ReplyErr nil); Done (ReplyErr nil)] ∧
  entry "k" r.2.1 = Some (mkItem 2 0) ∧
  ttlMap r.2.1 !! "k" = Some 150 ∧
  ttlMap (run [(100, CSetWithTTL "k" 1 50); (100, CSet "k" 2)] (newCache (V:=Z) 2))
    !! "k" = None ∧
  entry "k" (run [(100, CSet "k" 2); (100, CSetWithTTL "k" 1 50)] (newCache (V:=Z) 2))
  = Some (mkItem 1 150).
Proof. split_and!; by vm_compute. Qed.
End Concrete.

(** ** Further facts about the engine *)

Section EngineMoreFacts.
Context {K Val : Type} `{EqDecision K}.
Implicit Types (l : list (K * Val)) (e : lru.Cache K Val) (key k : K).
Local Arguments lru.removeOldest : simpl never.

Lemma without_without key l : lru.without key (lru.without key l) = lru.without key l.
Proof. apply without_absent, find_without_eq. Qed.

Lemma keys_without key l : (lru.without key l).*1 = filter (λ k, k ≠ key) l.*1.
Proof.
  induction l as [|[k v] l IH]; [done|].
  rewrite fmap_cons, filter_cons. cbn [lru.without fst].
  destruct (decide (k = key)) as [->|Hne].
  - by rewrite decide_False by (by intros ?).
  - rewrite decide_True by done. by rewrite fmap_cons, IH.
Qed.

Lemma NoDup_without key l : NoDup l.*1 → NoDup (lru.without key l).*1.
Proof. intros Hnd. rewrite keys_without. by apply NoDup_filter. Qed.

Lemma not_elem_without key l : key ∉ (lru.without key l).*1.
Proof. rewrite keys_without, list_elem_of_filter. by intros [? _]. Qed.

Lemma keys_removelast l : (removelast l).*1 = removelast l.*1.
Proof.
  induction l as [|kv l IH]; [done|]. destruct l as [|kv' l]; [done|].
  change (removelast (kv :: kv' :: l)) with (kv :: removelast (kv' :: l)).
  rewrite !fmap_cons, IH. done.
Qed.

Lemma NoDup_removelast {A} (ks : list A) : NoDup ks → NoDup (removelast ks).
Proof.
  intros Hnd. destruct ks as [|a ks]; [done|].
  rewrite (app_removelast_last a (l:=a :: ks)) in Hnd by done.
  by apply NoDup_app in Hnd as [? _].
Qed.

Lemma NoDup_Add key (v : Val) e :
  NoDup (lru.keys e) → NoDup (lru.keys (lru.Add key v e)).
Proof.
  unfold lru.keys, lru.Add. intros Hnd.
  destruct (lru.find key (lru.evictList e)) eqn:Hf; cbn [lru.evictList].
  - rewrite fmap_cons. apply NoDup_cons. split; [apply not_elem_without|].
    by apply NoDup_without.
  - assert (Hnew : NoDup ((key, v) :: lru.evictList e).*1).
    { rewrite fmap_cons. apply NoDup_cons. split; [|done].
      intros Hin. apply (proj2 (find_is_Some key (lru.evictList e))) in Hin.
      rewrite Hf in Hin. by destruct Hin. }
    case_match; [|done]. unfold lru.removeOldest.
    rewrite keys_removelast. by apply NoDup_removelast.
Qed.

Lemma NoDup_Get key e :
  NoDup (lru.keys e) → NoDup (lru.keys (lru.Get key e).1).
Proof.
  unfold lru.keys, lru.Get. intros Hnd.
  destruct (lru.find key (lru.evictList e)); cbn [fst lru.evictList]; [|done].
  rewrite fmap_cons. apply NoDup_cons. split; [apply not_elem_without|].
  by apply NoDup_without.
Qed.

(** With distinct keys, taking out a key that is there makes the list one
    shorter. *)
Lemma length_without_NoDup key l :
  NoDup l.*1 → is_Some (lru.find key l) →
  S (length (lru.without key l)) = length l.
Proof.
  induction l as [|[k v] l IH]; simpl; [by intros _ [? ?]|].
  intros [Hk Hnd]%NoDup_cons. destruct (decide (k = key)) as [->|Hne].
  - intros _. rewrite without_absent; [done|].
    destruct (lru.find key l) eqn:Hf; [|done].
    destruct Hk. apply find_is_Some. by rewrite Hf.
  - intros Hin. simpl. by rewrite IH.
Qed.
End EngineMoreFacts.

(** ** Further facts about the cache operations *)

Section CacheMoreFacts.
Context {V : Type}.
Implicit Types (c : LRUCache V) (key k pattern : string) (now ttl : Z).
Implicit Types (o : Call V) (calls : list (Z * Call V)).

Lemma reachable_run calls c : reachable c → reachable (run calls c).
Proof.
  revert c. induction calls as [|[now o] calls IH]; intros c Hc; [done|].
  apply IH. by apply reachable_step.
Qed.

Lemma NoDup_deleteKeys ks c :
  NoDup (lru.keys (cache c)) → NoDup (lru.keys (cache (deleteKeys ks c))).
Proof.
  revert c. induction ks as [|key ks IH]; intros c Hnd; [done|].
  rewrite deleteKeys_cons. apply IH. by apply NoDup_without.
Qed.

Lemma NoDup_step now o c :
  NoDup (lru.keys (cache c)) → NoDup (lru.keys (cache (step now o c))).
Proof.
  intros Hnd. destruct o as [key|key v|key v ttl|key|pattern| |]; cbn [step].
  - unfold Get. pose proof (NoDup_Get key (cache c) Hnd) as Hg.
    destruct (lru.Get key (cache c)) as [e [item|]]; cbn [fst] in Hg; [|done].
    case_match; [|done]. by apply NoDup_without.
  - by apply NoDup_Add.
  - by apply NoDup_Add.
  - by apply NoDup_without.
  - by apply NoDup_deleteKeys.
  - apply NoDup_nil_2.
  - done.
Qed.

(** The engine of a reachable cache holds every key once. *)
Lemma reachable_NoDup c : reachable c → NoDup (lru.keys (cache c)).
Proof.
  intros (size & c0 & calls & [_ ->]%NewLRUCache_inv & ->).
  induction calls as [|[now o] calls IH] using rev_ind; [apply NoDup_nil_2|].
  rewrite run_snoc. by apply NoDup_step.
Qed.

(** What one [Get] does to the counters. *)
Lemma Get_counters now key c :
  let r := Get now key c in
  (is_Some (ret r) ∧
   Hits (stats (next r)) = wrap64 (Hits (stats c) + 1) ∧
   Misses (stats (next r)) = Misses (stats c) ∧
   msg (logged r) = "Cache hit")
  ∨ (ret r = None ∧
     Hits (stats (next r)) = Hits (stats c) ∧
     Misses (stats (next r)) = wrap64 (Misses (stats c) + 1) ∧
     (msg (logged r) = "Cache miss" ∨ msg (logged r) = "Cache expired")).
Proof.
  intros r. subst r.
  destruct (entry key c) as [item|] eqn:Hf; unfold entry in Hf.
  - destruct (expired now item) eqn:He.
    + rewrite (Get_stale now key c item Hf He). right. split_and!; try done; by right.
    + rewrite (Get_fresh now key c item Hf He). left. split_and!; try done; by eexists.
  - rewrite (Get_absent now key c Hf). right. split_and!; try done; by left.
Qed.

Lemma stats_step_not_Get now o c :
  isGet o = false →
  Hits (stats (step now o c)) = Hits (stats c) ∧
  Misses (stats (step now o c)) = Misses (stats c).
Proof.
  destruct o as [key|key v|key v ttl|key|pattern| |]; try done.
  intros _. cbn [step next DeleteByPattern]. by rewrite stats_deleteKeys.
Qed.

Lemma countGets_snoc calls now o :
  countGets (calls ++ [(now, o)]) = countGets calls + (if isGet o then 1 else 0).
Proof.
  unfold countGets. rewrite filter_app, length_app, filter_cons, filter_nil.
  cbn [snd]. destruct (isGet o); case_decide; try done; simpl length; lia.
Qed.

Lemma countGets_nonneg calls : 0 ≤ countGets calls.
Proof. unfold countGets. lia. Qed.

(** A live entry survives every read made before its deadline. *)
Lemma entry_step_read_live now o key c (item : cacheItem V) :
  isRead o → expired now item = false →
  entry key c = Some item → entry key (step now o c) = Some item.
Proof.
  unfold entry. destruct o as [k| | | | | |]; try done. intros _ Hlive Hkey.
  cbn [step].
  destruct (lru.find k (lru.evictList (cache c))) as [item'|] eqn:Hf.
  - destruct (expired now item') eqn:He.
    + rewrite (Get_stale now k _ item' Hf He). cbn [next cache lru.evictList].
      destruct (decide (key = k)) as [<-|Hne]; [congruence|].
      by rewrite find_without_ne.
    + rewrite (Get_fresh now k _ item' Hf He). cbn [next cache lru.evictList].
      simpl. destruct (decide (k = key)) as [->|Hne]; [congruence|].
      by rewrite find_without_ne.
  - by rewrite (Get_absent now k _ Hf).
Qed.

(** When nothing in the index matches, nothing is collected. *)
Lemma keysToDelete_nil pattern c :
  (∀ key, ¬ targeted pattern key c) → keysToDelete pattern c = [].
Proof.
  intros Hnone. destruct (keysToDelete pattern c) as [|k ks] eqn:Hks; [done|].
  destruct (Hnone k). apply elem_of_keysToDelete. rewrite Hks. by left.
Qed.

Lemma not_targeted_after pattern key c :
  ¬ targeted pattern key (next (DeleteByPattern pattern c)).
Proof.
  intros [[t Ht] Hm]. cbn [next DeleteByPattern] in Ht.
  rewrite ttlMap_deleteKeys in Ht. case_decide as Hin; [done|].
  apply Hin, elem_of_keysToDelete. split; [|done]. by eexists.
Qed.

Lemma matchesPattern_only_star key : matchesPattern key "*" = true.
Proof. apply (matchesPattern_star key ""). by exists key. Qed.
End CacheMoreFacts.

(** ** Further properties of the cache *)

Section CacheExtras.
Context {V : Type}.
Implicit Types (c : LRUCache V) (key k pattern : string) (now ttl : Z).
Implicit Types (o : Call V) (calls : list (Z * Call V)).

(** X1.  [Delete] takes the key out of the engine and out of the
    expiration index and touches nothing else: the other keys keep their
    entries and deadlines, the counters stay.  It is idempotent, and on a
    key the cache does not hold it changes nothing at all; it always
    returns [nil]. *)
Theorem Delete_removes_only_key key c :
  let c' := next (Delete key c) in
  ¬ inEngine key c' ∧
  ¬ inIndex key c' ∧
  (∀ k, k ≠ key → entry k c' = entry k c ∧ ttlMap c' !! k = ttlMap c !! k) ∧
  stats c' = stats c ∧
  ret (Delete key c) = nil ∧
  next (Delete key c') = c' ∧
  (¬ inEngine key c → ¬ inIndex key c → c' = c).
Proof.
  intros c'. subst c'. unfold inEngine, inIndex, lru.Contains, entry.
  cbn [next ret Delete cache stats ttlMap lru.Remove lru.evictList lru.capacity].
  split_and!; try done.
  - unfold lru.Remove. cbn [lru.evictList]. rewrite find_without_eq. by intros [? ?].
  - rewrite lookup_delete_eq. by intros [? ?].
  - intros k Hne. unfold lru.Remove. cbn [lru.evictList].
    by rewrite find_without_ne, lookup_delete_ne.
  - unfold lru.Remove. cbn [lru.evictList lru.capacity].
    by rewrite without_without, delete_delete_eq.
  - intros Hne Hni. destruct c as [[cap l] st m]. unfold lru.Remove.
    cbn [cache stats ttlMap lru.evictList lru.capacity] in *.
    rewrite without_absent, delete_id; [done| |].
    + destruct (m !! key) eqn:Hm; [|done]. destruct Hni. by eexists.
    + destruct (lru.find key l) eqn:Hl; [|done]. destruct Hne. by eexists.
Qed.

(** X2.  [Get(key)] never touches another key: whether it hits, misses or
    expires [key], every other key keeps its entry and its deadline, the
    capacity stays, and the engine never grows. *)
Theorem Get_leaves_other_keys now key c :
  let c' := next (Get now key c) in
  (∀ k, k ≠ key → entry k c' = entry k c ∧ ttlMap c' !! k = ttlMap c !! k) ∧
  lru.capacity (cache c') = lru.capacity (cache c) ∧
  lru.Len (cache c') ≤ lru.Len (cache c).
Proof.
  intros c'. subst c'. unfold entry, lru.Len.
  destruct (lru.find key (lru.evictList (cache c))) as [item|] eqn:Hf.
  - pose proof (length_without_present key (lru.evictList (cache c))) as Hlen.
    rewrite Hf in Hlen. specialize (Hlen (mk_is_Some _ _ eq_refl)).
    destruct (expired now item) eqn:He.
    + rewrite (Get_stale now key c item Hf He).
      cbn [next cache ttlMap lru.evictList lru.capacity]. split_and!; [|done|lia].
      intros k Hne. by rewrite find_without_ne, lookup_delete_ne.
    + rewrite (Get_fresh now key c item Hf He).
      cbn [next cache ttlMap lru.evictList lru.capacity]. split_and!; [|done|].
      * intros k Hne. simpl. rewrite decide_False by done.
        by rewrite find_without_ne.
      * simpl length. lia.
  - rewrite (Get_absent now key c Hf). cbn [next cache ttlMap]. split_and!; [done|done|lia].
Qed.

(** X3.  Every [Get] moves exactly one counter, and the one that matches
    its reply: a found value comes with one more hit and the "Cache hit"
    event, not-found comes with one more miss and the "Cache miss" or
    "Cache expired" event ([int64] arithmetic). *)
Theorem Get_counts_once now key c :
  let r := Get now key c in
  (is_Some (ret r) ∧
   Hits (stats (next r)) = wrap64 (Hits (stats c) + 1) ∧
   Misses (stats (next r)) = Misses (stats c) ∧
   msg (logged r) = "Cache hit")
  ∨ (ret r = None ∧
     Hits (stats (next r)) = Hits (stats c) ∧
     Misses (stats (next r)) = wrap64 (Misses (stats c) + 1) ∧
     (msg (logged r) = "Cache miss" ∨ msg (logged r) = "Cache expired")).
Proof. apply Get_counters. Qed.

(** X4.  On a cache built by the constructor, as long as fewer than
    [2^63] [Get] calls were made, the hit and miss counters are not
    negative and add up to the number of [Get] calls; no other operation
    moves them. *)
Theorem counters_count_gets size c0 calls :
  NewLRUCache size = Some c0 →
  countGets calls < 2 ^ 63 →
  let c := run calls c0 in
  0 ≤ Hits (stats c) ∧
  0 ≤ Misses (stats c) ∧
  Hits (stats c) + Misses (stats c) = countGets calls.
Proof.
  intros [_ ->]%NewLRUCache_inv.
  induction calls as [|[now o] calls IH] using rev_ind; intros Hbound c.
  - subst c. by cbn.
  - subst c. rewrite countGets_snoc in *. rewrite run_snoc.
    pose proof (countGets_nonneg calls) as Hnn.
    destruct (isGet o) eqn:Ho.
    + destruct IH as (Hh & Hm & Hsum); [lia|].
      destruct o as [key| | | | | |]; try done. cbn [step].
      assert (Hw : ∀ z, 0 ≤ z → z + 1 < 2 ^ 63 → wrap64 (z + 1) = z + 1).
      { intros z Hz Hlt. unfold wrap64. rewrite Z.mod_small; lia. }
      destruct (Get_counters now key (run calls (newCache size)))
        as [(_ & -> & -> & _)|(_ & -> & -> & _)]; rewrite Hw by lia; lia.
    + destruct IH as (Hh & Hm & Hsum); [lia|].
      destruct (stats_step_not_Get now o (run calls (newCache size)) Ho) as [-> ->].
      lia.
Qed.

(** X5.  Round trip with a deadline: in a reachable state, a value stored
    by [SetWithTTL] at [t0] is returned by [Get] at every clock reading up
    to and including the deadline [t0 + ttl], also after other reads made
    no later than the deadline. *)
Theorem SetWithTTL_Get_live c key (v : V) ttl t0 reads t :
  reachable c →
  Forall (readBy (t0 + ttl)) reads →
  t ≤ t0 + ttl →
  ret (Get t key (run reads (next (SetWithTTL t0 key v ttl c)))) = Some v.
Proof.
  intros Hc Hreads Ht.
  set (s := next (SetWithTTL t0 key v ttl c)).
  set (item := mkItem v (TimeAdd t0 ttl)).
  assert (Hlive : ∀ now, now ≤ t0 + ttl → expired now item = false).
  { intros now Hnow. apply expired_false. right. done. }
  assert (Hs : entry key s = Some item).
  { subst s. unfold entry. cbn [next SetWithTTL cache]. apply find_Add_eq.
    by apply reachable_bounded in Hc as [? _]. }
  assert (Hinv : entry key (run reads s) = Some item).
  { clearbody s. clear Hc. revert s Hs.
    induction Hreads as [|[now o] reads [Ho Hnow] _ IH]; intros s Hs; [done|].
    apply IH. apply entry_step_read_live; [done|by apply Hlive|done]. }
  by rewrite (Get_fresh t key _ item Hinv (Hlive t Ht)).
Qed.

(** X6.  The constructor refuses a capacity that is not positive (it
    returns no cache); for a positive capacity it returns an empty cache of
    that capacity: counters and size are zero, no key is tracked, every
    [Get] misses. *)
Theorem NewLRUCache_result size :
  (size ≤ 0 → NewLRUCache (V:=V) size = None) ∧
  (0 < size →
   ∃ c : LRUCache V,
     NewLRUCache size = Some c ∧
     lru.capacity (cache c) = size ∧
     statsOf c = mkStats 0 0 0 ∧
     ttlMap c = ∅ ∧
     ∀ now key, ret (Get now key c) = None).
Proof.
  split; [apply NewLRUCache_None|]. intros Hsize. exists (newCache size).
  split_and!; try done. by apply NewLRUCache_Some.
Qed.

(** X7.  As long as no call makes the engine evict, every key of the
    expiration index is in the engine: eviction is the only way a key can
    stay tracked after it left the store. *)
Theorem index_within_engine_without_eviction size c0 calls :
  NewLRUCache size = Some c0 →
  neverEvicts calls c0 →
  indexInEngine (run calls c0).
Proof.
  intros [_ ->]%NewLRUCache_inv.
  assert (Hinit : indexInEngine (newCache (V:=V) size)).
  { intros key [t Ht]. cbn [newCache ttlMap] in Ht. by rewrite lookup_empty in Ht. }
  revert Hinit. generalize (newCache (V:=V) size) as c.
  induction calls as [|[now o] calls IH]; intros c Hinv Hquiet; [done|].
  destruct Hquiet as [Hne Hquiet]. apply IH; [|done]. by apply indexInEngine_step.
Qed.
End CacheExtras.

Section CacheExtras2.
Context {V : Type}.
Implicit Types (c : LRUCache V) (key k pattern : string) (now ttl : Z).
Implicit Types (o : Call V) (calls : list (Z * Call V)).

Lemma storedItem_key (tc : Z * Call V) k item :
  storedItem tc = Some (k, item) → isSet tc.2 ∧ callKey tc.2 = Some k.
Proof.
  destruct tc as [now o]. unfold storedItem. cbn [snd fst].
  destruct o; try done; by intros [= -> _].
Qed.

Lemma entries_within_capacity size calls :
  Forall (λ tc, isSet tc.2) calls →
  NoDup (omap (λ tc, callKey tc.2) calls) →
  Z.of_nat (length calls) ≤ size →
  ∀ tc k (item : cacheItem V),
    tc ∈ calls → storedItem tc = Some (k, item) →
    entry k (run calls (newCache size)) = Some item.
Proof.
  induction calls as [|[now o] calls IH] using rev_ind; [by intros _ _ _ tc k item ?%elem_of_nil|].
  intros Hsets Hnd Hlen tc k item Hin Hst.
  assert (Hsize : 0 < size) by (rewrite length_app in Hlen; simpl length in Hlen; lia).
  pose proof Hsets as [Hsets' [Ho _]%Forall_cons]%Forall_app.
  pose proof Hnd as Hnd0. rewrite omap_app in Hnd0.
  apply NoDup_app in Hnd0 as (Hnd' & Hfresh & _).
  rewrite length_app in Hlen. simpl length in Hlen.
  destruct (distinct_stores_fill size calls Hsize Hsets' Hnd') as [Hkeys Hfill].
  set (c := run calls (newCache size)) in *.
  assert (Hroom : lru.Len (cache c) < lru.capacity (cache c)).
  { unfold c at 2. rewrite capacity_run. cbn [newCache cache lru.capacity]. lia. }
  rewrite run_snoc. fold c.
  assert (Hstep : ∀ k0 item0, storedItem (now, o) = Some (k0, item0) →
            cache (step now o c) = lru.Add k0 item0 (cache c)).
  { intros k0 item0. unfold storedItem. cbn [fst snd].
    destruct o; try done; by intros [= <- <-]. }
  apply elem_of_app in Hin as [Hin|Hin%list_elem_of_singleton].
  - destruct (storedItem (now, o)) as [[k0 item0]|] eqn:Hlast.
    2: { unfold storedItem in Hlast. cbn [snd] in Hlast. by destruct o. }
    unfold entry. rewrite (Hstep k0 item0 eq_refl).
    assert (Hne : k ≠ k0).
    { intros ->. apply storedItem_key in Hst as [_ Hk], Hlast as [_ Hk0].
      apply (Hfresh k0).
      - apply list_elem_of_omap. by exists tc.
      - simpl. simpl in Hk0. rewrite Hk0. by left. }
    rewrite find_Add_ne_kept; [|done|by right].
    apply (IH Hsets' Hnd' ltac:(lia) tc k item Hin Hst).
  - subst tc. unfold entry. rewrite (Hstep k item Hst).
    apply find_Add_eq_kept. by right.
Qed.

(** X8.  Below capacity nothing is lost: after at most [size] stores under
    distinct keys on a new cache of capacity [size], every key stored by
    [Set] is found with its value at any time, and every key stored by
    [SetWithTTL] is found with its value up to its deadline. *)
Theorem stores_within_capacity_found size c0 calls :
  NewLRUCache size = Some c0 →
  Forall (λ tc, isSet tc.2) calls →
  NoDup (omap (λ tc, callKey tc.2) calls) →
  Z.of_nat (length calls) ≤ size →
  (∀ t0 key v t, (t0, CSet key v) ∈ calls →
     ret (Get t key (run calls c0)) = Some v) ∧
  (∀ t0 key v ttl t, (t0, CSetWithTTL key v ttl) ∈ calls → t ≤ t0 + ttl →
     ret (Get t key (run calls c0)) = Some v).
Proof.
  intros [_ ->]%NewLRUCache_inv Hsets Hnd Hlen. split.
  - intros t0 key v t Hin.
    pose proof (entries_within_capacity size calls Hsets Hnd Hlen
                  (t0, CSet key v) key (mkItem v 0) Hin eq_refl) as He.
    by rewrite (Get_fresh t key _ _ He).
  - intros t0 key v ttl t Hin Ht.
    pose proof (entries_within_capacity size calls Hsets Hnd Hlen
                  (t0, CSetWithTTL key v ttl) key (mkItem v (TimeAdd t0 ttl)) Hin eq_refl)
      as He.
    rewrite (Get_fresh t key _ _ He); [done|]. apply expired_false. by right.
Qed.

(** X9.  The pattern ["*"] alone matches every key: [DeleteByPattern("*")]
    empties the expiration index and removes every tracked key from the
    engine, reports their number, and leaves the keys stored without
    deadline in the cache (it is not a [Clear]). *)
Theorem DeleteByPattern_star c :
  let r := DeleteByPattern "*" c in
  ttlMap (next r) = ∅ ∧
  (∀ key, inIndex key c → entry key (next r) = None) ∧
  (∀ key, ¬ inIndex key c → entry key (next r) = entry key c) ∧
  logged r = mkLog "Cache delete by pattern"
               [("pattern", LStr "*"); ("count", LInt (Z.of_nat (size (ttlMap c))))].
Proof.
  intros r. subst r. cbn [next logged DeleteByPattern].
  assert (Hall : ∀ key, key ∈ keysToDelete "*" c ↔ inIndex key c).
  { intros key. rewrite elem_of_keysToDelete. unfold targeted.
    rewrite matchesPattern_only_star. split; [by intros [? _]|by intros ?]. }
  assert (Hempty : ttlMap (deleteKeys (keysToDelete "*" c) c) = ∅).
  { apply map_empty. intros key. rewrite ttlMap_deleteKeys.
    case_decide as Hin; [done|]. rewrite Hall in Hin.
    destruct (ttlMap c !! key) eqn:Hk; [|done]. destruct Hin. by eexists. }
  split_and!.
  - done.
  - intros key Hin. rewrite entry_deleteKeys_eq, decide_True; [done|]. by apply Hall.
  - intros key Hout. rewrite entry_deleteKeys_eq, decide_False; [done|]. by rewrite Hall.
  - pose proof (size_deleteKeys (keysToDelete "*" c) c (NoDup_keysToDelete "*" c)) as Hsz.
    rewrite Hempty, map_size_empty in Hsz.
    rewrite <-Hsz; [done|]. intros k. by rewrite Hall.
Qed.

(** X10.  When no tracked key matches, [DeleteByPattern] changes nothing
    at all, reports the count 0 and returns [nil]. *)
Theorem DeleteByPattern_no_match pattern c :
  (∀ key, inIndex key c → matchesPattern key pattern = false) →
  next (DeleteByPattern pattern c) = c ∧
  logged (DeleteByPattern pattern c)
  = mkLog "Cache delete by pattern" [("pattern", LStr pattern); ("count", LInt 0)] ∧
  ret (DeleteByPattern pattern c) = nil.
Proof.
  intros Hnone. unfold DeleteByPattern. rewrite keysToDelete_nil; [done|].
  intros key [Hin Hm]. rewrite (Hnone key Hin) in Hm. done.
Qed.

(** X11.  [DeleteByPattern] is idempotent: doing it again with the same
    pattern removes nothing and leaves the state as it is. *)
Theorem DeleteByPattern_idempotent pattern c :
  let c' := next (DeleteByPattern pattern c) in
  next (DeleteByPattern pattern c') = c' ∧ removed pattern c' = 0.
Proof.
  intros c'.
  assert (Hnil : keysToDelete pattern c' = [])
    by (apply keysToDelete_nil; intros key; apply not_targeted_after).
  assert (Hsame : next (DeleteByPattern pattern c') = c')
    by (unfold DeleteByPattern; by rewrite Hnil).
  split; [done|]. unfold removed. rewrite Hsame. lia.
Qed.

(** X12.  An entry whose deadline has passed still counts in
    [Stats().Size]: [Stats] sweeps nothing.  In a reachable state the [Get]
    that finds it expired takes it out, and [Size] goes down by exactly
    one. *)
Theorem expired_entry_counted_until_read c key item now :
  reachable c →
  entry key c = Some item →
  expired now item = true →
  cache (Stats_ c).2 = cache c ∧
  Size (statsOf (Stats_ c).2) = Size (statsOf c) ∧
  Size (statsOf (next (Get now key c))) = Size (statsOf c) - 1.
Proof.
  intros Hc Hf He. split_and!; [done|done|].
  rewrite (Get_stale now key c item Hf He). unfold statsOf, Stats_, lru.Len.
  cbn [fst Size next cache lru.evictList].
  pose proof (length_without_NoDup key (lru.evictList (cache c))
                (reachable_NoDup c Hc)) as Hlen.
  unfold entry in Hf. rewrite Hf in Hlen. specialize (Hlen (mk_is_Some _ _ eq_refl)). lia.
Qed.

(** X13.  After [Clear] every [Get] misses, whatever was stored; the
    capacity is kept; a second [Clear] changes nothing; and the event it
    logs always carries the size 0, not the number of entries cleared. *)
Theorem Clear_then_empty c :
  let c' := next (Clear c) in
  (∀ now key, ret (Get now key c') = None) ∧
  lru.capacity (cache c') = lru.capacity (cache c) ∧
  next (Clear c') = c' ∧
  logged (Clear c) = mkLog "Cache cleared" [("size", LInt 0)].
Proof.
  intros c'. subst c'. split_and!.
  - intros now key. by rewrite Get_absent.
  - done.
  - done.
  - done.
Qed.
End CacheExtras2.

Lemma string_app_assoc (p q r : string) : (p +:+ q) +:+ r = p +:+ (q +:+ r).
Proof.
  induction p as [|a p IH]; [done|].
  change (String a ((p +:+ q) +:+ r) = String a (p +:+ (q +:+ r))).
  by rewrite IH.
Qed.

(** X14.  [matchesPattern]: the lone star matches every key; every key
    matches itself as a pattern; a shorter prefix pattern matches whatever
    a longer one matches; the empty pattern matches the empty key only;
    and a key shorter than the prefix never matches. *)
Theorem matchesPattern_laws :
  (∀ key, matchesPattern key "*" = true) ∧
  (∀ key, matchesPattern key key = true) ∧
  (∀ key p q, matchesPattern key (p +:+ q +:+ "*") = true →
              matchesPattern key (p +:+ "*") = true) ∧
  (∀ key, matchesPattern key "" = true ↔ key = "") ∧
  (∀ key p, (String.length key < String.length p)%nat →
            matchesPattern key (p +:+ "*") = false).
Proof.
  split_and!.
  - apply matchesPattern_only_star.
  - intros key.
    destruct (bool_decide (String.get (String.length key - 1) key = Some "*"%char))
      eqn:Hlast.
    + apply bool_decide_eq_true_1, last_byte_inv in Hlast as [p ->].
      apply matchesPattern_star. by exists "*".
    + unfold matchesPattern. rewrite Hlast, andb_false_r. apply String.eqb_refl.
  - intros key p q.
    rewrite <-string_app_assoc, !matchesPattern_star.
    intros [rest ->]. exists (q +:+ rest). apply string_app_assoc.
  - intros key. apply matchesPattern_plain. intros p Hp. by destruct p.
  - intros key p Hlen. destruct (matchesPattern key (p +:+ "*")) eqn:Hm; [|done].
    apply matchesPattern_star in Hm as [rest ->].
    rewrite string_length_app in Hlen. lia.
Qed.

(** ** Properties of [response.SuccessWithPagination] *)

Section PaginationExtras.
Context {D : Type}.
Implicit Types (message : string) (data : option D) (pageNo pageSize totalRecord : Z).

(** X15.  For a positive page size and a record count that is not
    negative, [PageTotal] is the number of pages needed: the least number
    of pages of that size that hold all records, and 0 exactly when there
    are no records. *)
Theorem pagination_page_total message data pageNo pageSize totalRecord :
  0 < pageSize →
  0 ≤ totalRecord →
  int64 totalRecord →
  let p := response.Pagination_
             (response.body
                (response.SuccessWithPagination message data pageNo pageSize totalRecord)) in
  (response.PageTotal p - 1) * pageSize < totalRecord ∧
  totalRecord ≤ response.PageTotal p * pageSize ∧
  (response.PageTotal p = 0 ↔ totalRecord = 0).
Proof.
  intros Hsize Hrec [_ Hmax] p. subst p.
  unfold response.SuccessWithPagination.
  cbn [response.body response.Pagination_ response.PageTotal].
  destruct (Z.ltb_spec 0 pageSize) as [_|?]; [|lia].
  rewrite Z.quot_div_nonneg, Z.rem_mod_nonneg by lia.
  pose proof (Z.div_mod totalRecord pageSize ltac:(lia)) as Hdm.
  pose proof (Z.mod_pos_bound totalRecord pageSize Hsize) as Hmod.
  assert (Hq : 0 ≤ totalRecord / pageSize) by (apply Z.div_pos; lia).
  destruct (Z.ltb_spec 0 (totalRecord mod pageSize)) as [Hpos|Hzero].
  - assert (Hle : totalRecord / pageSize < totalRecord) by nia.
    unfold wrap64. rewrite Z.mod_small by lia. nia.
  - nia.
Qed.

(** X16.  [SuccessWithPagination] always answers 200 with [Success] set;
    the page number it reports is the smaller of the requested one and
    [PageTotal] (so it never exceeds [PageTotal], and is never raised: a
    page below 1 is passed on as it is); the page size is echoed;
    [TotalRecord] is always reported as 0, whatever count was given.  A
    page size that is not positive gives [PageTotal = 0] without any
    division, and a negative record count gives no positive
    [PageTotal]. *)
Theorem pagination_page_no message data pageNo pageSize totalRecord :
  let r := response.SuccessWithPagination message data pageNo pageSize totalRecord in
  let p := response.Pagination_ (response.body r) in
  response.status r = 200 ∧
  response.Success (response.body r) = true ∧
  response.Message (response.body r) = message ∧
  response.Data (response.body r) = data ∧
  response.PageNo p = Z.min pageNo (response.PageTotal p) ∧
  response.PageSize p = pageSize ∧
  response.TotalRecord p = 0 ∧
  (pageSize ≤ 0 → response.PageTotal p = 0) ∧
  (0 < pageSize → totalRecord ≤ 0 → response.PageTotal p ≤ 0).
Proof.
  intros r p. subst p r. unfold response.SuccessWithPagination.
  cbn [response.status response.body response.Success response.Message
       response.Data response.Pagination_ response.PageNo response.PageSize
       response.PageTotal response.TotalRecord].
  split_and!; try done.
  - case_match eqn:Hlt; [apply Z.ltb_lt in Hlt|apply Z.ltb_ge in Hlt]; lia.
  - intros Hsize. destruct (Z.ltb_spec 0 pageSize); [lia|done].
  - intros Hsize Hrec. destruct (Z.ltb_spec 0 pageSize) as [_|?]; [|lia].
    pose proof (Z.rem_nonpos totalRecord pageSize ltac:(lia) Hrec) as Hrem.
    destruct (Z.ltb_spec 0 (Z.rem totalRecord pageSize)); [lia|].
    rewrite <-(Z.opp_involutive totalRecord), Z.quot_opp_l by lia.
    pose proof (Z.quot_pos (- totalRecord) pageSize ltac:(lia) Hsize). lia.
Qed.
End PaginationExtras.

(** ** Facts about [strings.Split] on one byte *)

Section SplitFacts.
Import middleware.
Implicit Types (s w : string) (sep a : ascii).

Lemma Split_nonempty s sep : Split s sep ≠ [].
Proof.
  induction s as [|a s IH]; [done|]. cbn [Split].
  case_decide; [done|]. by destruct (Split s sep).
Qed.

Lemma Split_free s sep : free sep s → Split s sep = [s].
Proof.
  induction s as [|a s IH]; [done|]. intros [Hne Hs]. cbn [Split].
  rewrite decide_False by done. by rewrite IH.
Qed.

Lemma Split_app w s sep :
  free sep w → Split (w +:+ String sep s) sep = w :: Split s sep.
Proof.
  induction w as [|a w IH]; intros Hw.
  - change ("" +:+ String sep s) with (String sep s). cbn [Split].
    by rewrite decide_True.
  - destruct Hw as [Hne Hw].
    change (String a w +:+ String sep s) with (String a (w +:+ String sep s)).
    cbn [Split]. rewrite decide_False by done. by rewrite IH.
Qed.

(** The first piece has no separator; either it is the whole string, or
    the rest is split after the separator that follows it. *)
Lemma Split_cons_inv s sep w ws :
  Split s sep = w :: ws →
  free sep w ∧
  ((ws = [] ∧ s = w) ∨ ∃ s', s = w +:+ String sep s' ∧ Split s' sep = ws).
Proof.
  revert w ws. induction s as [|a s IH]; intros w ws; cbn [Split].
  - intros [= <- <-]. split; [done|]. by left.
  - case_decide as Ha.
    + subst a. intros [= <- <-]. split; [done|]. right. by exists s.
    + destruct (Split s sep) as [|w' ws'] eqn:Hs; [by destruct (Split_nonempty s sep)|].
      intros [= <- <-]. destruct (IH w' ws' eq_refl) as [Hw' Hrest].
      split; [done|]. destruct Hrest as [[-> ->]|(s' & -> & Hs')].
      * by left.
      * right. by exists s'.
Qed.

(** A string splits into exactly two pieces when it has exactly one
    separator. *)
Lemma Split_two s sep w1 w2 :
  Split s sep = [w1; w2] ↔ s = w1 +:+ String sep w2 ∧ free sep w1 ∧ free sep w2.
Proof.
  split.
  - intros (Hw1 & [[? _]|(s' & -> & Hs')])%Split_cons_inv; [done|].
    apply Split_cons_inv in Hs' as (Hw2 & [[_ ->]|(s'' & _ & Hnil)]); [done|].
    by destruct (Split_nonempty s'' sep).
  - intros (-> & Hw1 & Hw2). by rewrite Split_app, Split_free.
Qed.
End SplitFacts.

(** ** Properties of [AuthMiddleware] and [GetAuthInfo] *)

Section AuthExtras.
Import middleware.
Context {D : Type}.
Variable ValidateToken : string → Claims + TokenError.

(** The context a valid token leads to. *)
Lemma AuthMiddleware_bearer tok ls :
  free " "%char tok →
  AuthMiddleware (D:=D) ValidateToken (mkCtx ("Bearer " +:+ tok) ls)
  = match ValidateToken tok with
    | inl claims =>
        Forwarded
          (setLocal "role" (AnyString (claimRole claims))
             (setLocal "email" (AnyString (claimEmail claims))
                (setLocal "userID" (AnyString (claimUserID claims))
                   (mkCtx ("Bearer " +:+ tok) ls))))
    | inr ErrExpiredToken => Replied (response.Unauthorized "Token has expired")
    | inr (ErrOther _) => Replied (response.Unauthorized "Invalid token")
    end.
Proof.
  intros Hfree. unfold AuthMiddleware. cbn [Authorization].
  rewrite decide_False by done.
  assert (Hsplit : Split ("Bearer " +:+ tok) " "%char = ["Bearer"; tok]).
  { apply Split_two. split_and!; [done| |done]. by repeat split. }
  rewrite Hsplit. cbn [length Nat.eqb negb orb lookup list_lookup default].
  rewrite bool_decide_eq_true_2 by done. reflexivity.
Qed.

(** When the middleware hands the request on, and with what context. *)
Lemma AuthMiddleware_forwarded c c' :
  AuthMiddleware (D:=D) ValidateToken c = Forwarded c' ↔
  ∃ tok claims,
    Authorization c = "Bearer " +:+ tok ∧
    free " "%char tok ∧
    ValidateToken tok = inl claims ∧
    c' = setLocal "role" (AnyString (claimRole claims))
           (setLocal "email" (AnyString (claimEmail claims))
              (setLocal "userID" (AnyString (claimUserID claims)) c)).
Proof.
  split.
  - unfold AuthMiddleware. intros Hout. case_decide as Hempty; [done|].
    destruct (Split (Authorization c) " "%char) as [|w1 [|w2 [|w3 ws]]] eqn:Hs;
      cbn [length Nat.eqb negb orb] in Hout; try done.
    cbn [lookup list_lookup default from_option id] in Hout.
    case_bool_decide as Hb; [|done]. injection Hb as ->. cbn [negb] in Hout.
    apply Split_two in Hs as (Hhdr & _ & Hfree).
    destruct (ValidateToken w2) as [claims|[|msg]] eqn:Hv; try done.
    injection Hout as <-. by exists w2, claims.
  - intros (tok & claims & Hhdr & Hfree & Hv & ->).
    destruct c as [hdr ls]. cbn [Authorization] in Hhdr. subst hdr.
    by rewrite AuthMiddleware_bearer, Hv.
Qed.

(** X17.  The middleware lets a request through exactly when the
    [Authorization] value is [Bearer], one space, and a token without
    spaces that [ValidateToken] accepts; the context handed on is the
    request's context with the three locals set from the claims.  (The
    scheme is case sensitive, and the token may be empty.) *)
Theorem AuthMiddleware_forwards_iff c c' :
  AuthMiddleware (D:=D) ValidateToken c = Forwarded c' ↔
  ∃ tok claims,
    Authorization c = "Bearer " +:+ tok ∧
    free " "%char tok ∧
    ValidateToken tok = inl claims ∧
    c' = setLocal "role" (AnyString (claimRole claims))
           (setLocal "email" (AnyString (claimEmail claims))
              (setLocal "userID" (AnyString (claimUserID claims)) c)).
Proof. apply AuthMiddleware_forwarded. Qed.

(** X18.  Whatever the request, the middleware either answers 401 with
    [Success] unset, no data and one of its four messages, never calling
    the next handler, or hands on a context from which [GetAuthInfo] reads
    back the claims of the validated token, with the request's header
    unchanged.  A request without [Authorization] value gets the message
    that the header is required. *)
Theorem AuthMiddleware_outcome c :
  match AuthMiddleware (D:=D) ValidateToken c with
  | Replied s =>
      response.status s = 401 ∧
      response.Success (response.body s) = false ∧
      response.Data (response.body s) = None ∧
      response.Message (response.body s)
        ∈ ["Authorization header is required"; "Invalid authorization header format";
           "Token has expired"; "Invalid token"] ∧
      (Authorization c = "" →
       response.Message (response.body s) = "Authorization header is required")
  | Forwarded c' =>
      Authorization c' = Authorization c ∧
      ∃ tok claims,
        Authorization c = "Bearer " +:+ tok ∧
        ValidateToken tok = inl claims ∧
        GetAuthInfo c'
        = Some (mkAuthInfo (claimUserID claims) (claimEmail claims) (claimRole claims))
  end.
Proof.
  destruct (AuthMiddleware ValidateToken c) as [s|c'] eqn:Hout.
  - assert (Hreply : ∀ m : string,
              m ∈ ["Authorization header is required";
                   "Invalid authorization header format";
                   "Token has expired"; "Invalid token"] →
              (Authorization c = "" → m = "Authorization header is required") →
              Replied (response.Unauthorized m) = Replied s →
              response.status s = 401 ∧
              response.Success (response.body s) = false ∧
              response.Data (response.body s) = None ∧
              response.Message (response.body s)
                ∈ ["Authorization header is required";
                   "Invalid authorization header format";
                   "Token has expired"; "Invalid token"] ∧
              (Authorization c = "" →
               response.Message (response.body s) = "Authorization header is required")).
    { intros m Hm Hreq [= <-]. by split_and!. }
    unfold AuthMiddleware in Hout. case_decide as Hempty.
    { refine (Hreply _ _ _ Hout); [by repeat constructor|done]. }
    destruct (_ || _).
    { refine (Hreply _ _ _ Hout); [by repeat constructor|done]. }
    destruct (ValidateToken _) as [claims|[|msg]]; [done| |].
    + refine (Hreply _ _ _ Hout); [by repeat constructor|done].
    + refine (Hreply _ _ _ Hout); [by repeat constructor|done].
  - apply AuthMiddleware_forwarded in Hout as (tok & claims & Hhdr & _ & Hv & ->).
    split; [done|]. exists tok, claims. split_and!; [done|done|].
    unfold GetAuthInfo, localString, setLocal. cbn [locals].
    rewrite (lookup_insert_ne _ "role" "userID") by done.
    rewrite (lookup_insert_ne _ "email" "userID") by done.
    rewrite lookup_insert_eq.
    rewrite (lookup_insert_ne _ "role" "email") by done.
    rewrite lookup_insert_eq.
    by rewrite lookup_insert_eq.
Qed.

(** X19.  [GetAuthInfo] panics (no result) on a context in which one of
    the locals [userID], [email], [role] is missing or is not a string,
    as on a route that the middleware does not guard; it returns a result
    exactly when all three are strings, and then returns these. *)
Theorem GetAuthInfo_defined c info :
  GetAuthInfo c = Some info ↔
  locals c !! "userID" = Some (AnyString (UserID info)) ∧
  locals c !! "email" = Some (AnyString (Email info)) ∧
  locals c !! "role" = Some (AnyString (Role info)).
Proof.
  unfold GetAuthInfo, localString. destruct info as [u e r]. cbn [UserID Email Role].
  split.
  - destruct (locals c !! "userID") as [[su|?]|]; try done.
    destruct (locals c !! "email") as [[se|?]|]; try done.
    destruct (locals c !! "role") as [[sr|?]|]; try done.
    by intros [= -> -> ->].
  - by intros (-> & -> & ->).
Qed.
End AuthExtras.

(** ** Properties of [parseLogLevel] *)

Section LogLevelExtras.
Import logging.
Variable unicodeLower : string → string.

Lemma lowerByte_upperByte a : lowerByte (upperByte a) = lowerByte a.
Proof. by destruct a as [[] [] [] [] [] [] [] []]. Qed.

Lemma isASCII_upperByte a : isASCII (upperByte a) = isASCII a.
Proof. by destruct a as [[] [] [] [] [] [] [] []]. Qed.

Lemma lowerByte_idemp a : lowerByte (lowerByte a) = lowerByte a.
Proof. by destruct a as [[] [] [] [] [] [] [] []]. Qed.

Lemma isASCII_lowerByte a : isASCII (lowerByte a) = isASCII a.
Proof. by destruct a as [[] [] [] [] [] [] [] []]. Qed.

Lemma ToLower_upper s :
  allBytes isASCII s = true →
  ToLower unicodeLower (mapBytes upperByte s) = ToLower unicodeLower s.
Proof.
  intros Hs. unfold ToLower.
  assert (Hup : allBytes isASCII (mapBytes upperByte s) = true).
  { induction s as [|a s IH]; [done|]. cbn [mapBytes allBytes] in *.
    apply andb_true_iff in Hs as [Ha Hs]. by rewrite isASCII_upperByte, Ha, IH. }
  rewrite Hs, Hup. clear Hs Hup.
  induction s as [|a s IH]; [done|]. cbn [mapBytes].
  by rewrite lowerByte_upperByte, IH.
Qed.

Lemma ToLower_lower s :
  allBytes isASCII s = true →
  ToLower unicodeLower (mapBytes lowerByte s) = ToLower unicodeLower s.
Proof.
  intros Hs. unfold ToLower.
  assert (Hlow : allBytes isASCII (mapBytes lowerByte s) = true).
  { induction s as [|a s IH]; [done|]. cbn [mapBytes allBytes] in *.
    apply andb_true_iff in Hs as [Ha Hs]. by rewrite isASCII_lowerByte, Ha, IH. }
  rewrite Hs, Hlow. clear Hs Hlow.
  induction s as [|a s IH]; [done|]. cbn [mapBytes].
  by rewrite lowerByte_idemp, IH.
Qed.

(** X20.  [parseLogLevel] never yields the trace level or "no level"; on
    ASCII input it ignores the case of the letters; every name it knows
    gives a level other than the fallback only through these names: an
    ASCII string whose lower-case form is not one of the nine names, the
    empty string included, gives the info level. *)
Theorem parseLogLevel_cases level :
  parseLogLevel unicodeLower level ≠ TraceLevel ∧
  parseLogLevel unicodeLower level ≠ NoLevel ∧
  (allBytes isASCII level = true →
   parseLogLevel unicodeLower (mapBytes upperByte level)
   = parseLogLevel unicodeLower level ∧
   parseLogLevel unicodeLower (mapBytes lowerByte level)
   = parseLogLevel unicodeLower level) ∧
  (allBytes isASCII level = true →
   mapBytes lowerByte level ∉ levelNames →
   parseLogLevel unicodeLower level = InfoLevel).
Proof.
  split_and!.
  - unfold parseLogLevel. by repeat case_decide.
  - unfold parseLogLevel. by repeat case_decide.
  - intros Hs. unfold parseLogLevel. by rewrite ToLower_upper, ToLower_lower.
  - intros Hs Hnot. unfold parseLogLevel, ToLower. rewrite Hs.
    unfold levelNames in Hnot. rewrite !not_elem_of_cons in Hnot.
    destruct Hnot as (? & ? & ? & ? & ? & ? & ? & ? & ? & _).
    by repeat (rewrite decide_False by tauto).
Qed.
End LogLevelExtras.

(** ** Properties of [NewHTTPClient] *)

Section ClientExtras.
Import client.

End ClientExtras.

(** ** Recency and replacement *)

Section RecencyExtras.
Context {V : Type}.
Implicit Types (c : LRUCache V) (key k : string) (now ttl : Z).

Lemma find_removelast_second {K Val} `{EqDecision K} (a b x : K * Val)
    (l : list (K * Val)) (k0 : K) :
  a.1 ≠ k0 → b.1 = k0 →
  lru.find k0 (removelast (a :: b :: x :: l)) = Some b.2.
Proof.
  intros Ha Hb. destruct a as [ka va], b as [kb vb]. simpl in *. subst kb.
  change (removelast ((ka, va) :: (k0, vb) :: x :: l))
    with ((ka, va) :: (k0, vb) :: removelast (x :: l)).
  simpl. by rewrite decide_False, decide_True.
Qed.

(** X22.  A hit protects the key: in a cache of capacity at least 2, after
    a [Get] that finds [key], storing under a key that the cache does not
    hold never evicts [key], however full the cache is. *)
Theorem Get_protects_from_eviction c key k (v : V) item now :
  2 ≤ lru.capacity (cache c) →
  entry key c = Some item →
  expired now item = false →
  k ≠ key →
  ¬ inEngine k c →
  entry key (next (Set_ k v (next (Get now key c)))) = Some item ∧
  ∀ t ttl, entry key (next (SetWithTTL t k v ttl (next (Get now key c))))
           = Some item.
Proof.
  intros Hcap Hf He Hne Hfresh. unfold entry in *.
  rewrite (Get_fresh now key c item Hf He).
  assert (Hadd : ∀ it : cacheItem V,
            lru.find key
              (lru.evictList
                 (lru.Add k it
                    (lru.mk (lru.capacity (cache c))
                       ((key, item) :: lru.without key (lru.evictList (cache c))))))
            = Some item).
  { intros it. unfold lru.Add. cbn [lru.evictList lru.capacity].
    assert (Hk : lru.find k ((key, item) :: lru.without key (lru.evictList (cache c)))
                 = None).
    { simpl. rewrite decide_False by done. rewrite find_without_ne by done.
      unfold inEngine, lru.Contains in Hfresh.
      destruct (lru.find k (lru.evictList (cache c))); [|done].
      destruct Hfresh. by eexists. }
    rewrite Hk. cbn [lru.evictList].
    destruct (lru.without key (lru.evictList (cache c))) as [|x l].
    - destruct (Z.ltb_spec (lru.capacity (cache c))
                  (Z.of_nat (length [(k, it); (key, item)]))) as [Hlt|_].
      + simpl in Hlt. lia.
      + simpl. by rewrite decide_False, decide_True.
    - case_match.
      + unfold lru.removeOldest. by rewrite (find_removelast_second (k, it) (key, item)).
      + simpl. by rewrite decide_False, decide_True. }
  split; [apply Hadd|]. intros t ttl. apply Hadd.
Qed.

(** X23.  Storing under a key that the cache already holds never evicts:
    every other key keeps its entry and its deadline, and in a reachable
    state [Stats().Size] stays as it is.  [Set] takes the key out of the
    expiration index; [SetWithTTL] records the new deadline there. *)
Theorem store_existing_key c key (v : V) now ttl :
  reachable c →
  inEngine key c →
  let c1 := next (Set_ key v c) in
  let c2 := next (SetWithTTL now key v ttl c) in
  (∀ k, k ≠ key → entry k c1 = entry k c ∧ ttlMap c1 !! k = ttlMap c !! k) ∧
  (∀ k, k ≠ key → entry k c2 = entry k c ∧ ttlMap c2 !! k = ttlMap c !! k) ∧
  Size (statsOf c1) = Size (statsOf c) ∧
  Size (statsOf c2) = Size (statsOf c) ∧
  entry key c1 = Some (mkItem v 0) ∧
  ttlMap c1 !! key = None ∧
  entry key c2 = Some (mkItem v (now + ttl)) ∧
  ttlMap c2 !! key = Some (now + ttl).
Proof.
  intros Hc Hin c1 c2. subst c1 c2. unfold entry, statsOf, Stats_.
  cbn [next Set_ SetWithTTL cache ttlMap fst Size expiresAt].
  assert (Hlen : ∀ it : cacheItem V,
            lru.Len (lru.Add key it (cache c)) = lru.Len (cache c)).
  { intros it. unfold lru.Add, lru.Len. unfold inEngine, lru.Contains in Hin.
    destruct Hin as [w Hw]. rewrite Hw. cbn [lru.evictList].
    pose proof (length_without_NoDup key (lru.evictList (cache c))
                  (reachable_NoDup c Hc)) as Hl.
    rewrite Hw in Hl. specialize (Hl (mk_is_Some _ _ eq_refl)). simpl length. lia. }
  split_and!.
  - intros k Hne. rewrite find_Add_ne_kept by (done || by left).
    by rewrite lookup_delete_ne.
  - intros k Hne. rewrite find_Add_ne_kept by (done || by left).
    by rewrite lookup_insert_ne.
  - apply Hlen.
  - apply Hlen.
  - apply find_Add_eq_kept. by left.
  - apply lookup_delete_eq.
  - apply find_Add_eq_kept. by left.
  - apply lookup_insert_eq.
Qed.
End RecencyExtras.

(** ** More on the middleware and the client *)

Section MoreExtras.
Import middleware.

(** X24.  A request whose [Authorization] value is not [Bearer], one
    space and a token without spaces is answered without consulting
    [ValidateToken]: with the message that the header is required when the
    value is empty, and with the message about the format otherwise. *)
Theorem AuthMiddleware_malformed_header {D : Type}
    (ValidateToken : string → Claims + TokenError) c :
  (∀ tok, free " "%char tok → Authorization c ≠ "Bearer " +:+ tok) →
  AuthMiddleware (D:=D) ValidateToken c
  = Replied
      (response.Unauthorized
         (if decide (Authorization c = "") then "Authorization header is required"
          else "Invalid authorization header format")).
Proof.
  intros Hbad. unfold AuthMiddleware. case_decide as Hempty; [done|].
  destruct (Split (Authorization c) " "%char) as [|w1 [|w2 [|w3 ws]]] eqn:Hs;
    cbn [length Nat.eqb negb orb]; try done.
  cbn [lookup list_lookup]. case_bool_decide as Hb; [|done].
  injection Hb as ->. apply Split_two in Hs as (Hhdr & _ & Hfree).
  by destruct (Hbad w2 Hfree).
Qed.

(** Deleting the same keys, in any order and with any repetitions, gives
    the same cache. *)
Lemma deleteKeys_same_keys {V : Type} (ks ks' : list string) (c : LRUCache V) :
  (∀ k, k ∈ ks ↔ k ∈ ks') → deleteKeys ks c = deleteKeys ks' c.
Proof.
  intros Hsame.
  pose proof (evictList_deleteKeys ks c) as He.
  pose proof (evictList_deleteKeys ks' c) as He'.
  pose proof (capacity_deleteKeys ks c) as Hc.
  pose proof (capacity_deleteKeys ks' c) as Hc'.
  pose proof (stats_deleteKeys ks c) as Hs.
  pose proof (stats_deleteKeys ks' c) as Hs'.
  assert (Hm : ttlMap (deleteKeys ks c) = ttlMap (deleteKeys ks' c)).
  { apply map_eq. intros k. rewrite !ttlMap_deleteKeys.
    destruct (decide (k ∈ ks)) as [Hin|Hout].
    - by rewrite decide_True by (by apply Hsame).
    - by rewrite decide_False by (by rewrite <-Hsame). }
  assert (Hl : lru.evictList (cache (deleteKeys ks c))
               = lru.evictList (cache (deleteKeys ks' c))).
  { rewrite He, He'. apply list_filter_iff. intros kv. by rewrite Hsame. }
  destruct (deleteKeys ks c) as [[cap l] st m], (deleteKeys ks' c) as [[cap' l'] st' m'].
  cbn [cache stats ttlMap lru.capacity lru.evictList] in *. congruence.
Qed.

(** X25.  Go ranges over a map in no fixed order.  The order in which
    [DeleteByPattern] collects the matching keys does not matter: whatever
    rearrangement [ks] of the collected keys the range produces, deleting
    the keys of [ks] one by one gives the state that [DeleteByPattern] is
    modelled to give, and the same count. *)
Theorem DeleteByPattern_order_irrelevant {V : Type} pattern (ks : list string)
    (c : LRUCache V) :
  ks ≡ₚ keysToDelete pattern c →
  deleteKeys ks c = next (DeleteByPattern pattern c) ∧
  length ks = length (keysToDelete pattern c).
Proof.
  intros Hp. split.
  - cbn [next DeleteByPattern]. apply deleteKeys_same_keys.
    intros k. by rewrite Hp.
  - by rewrite Hp.
Qed.
End MoreExtras.

(** ** The further properties at concrete inputs *)

Section ExtrasConcrete.

(** X4 on a run with three reads: one hit, one miss, one expiry. *)
Lemma counters_count_gets_witness :
  let c := run [(100, CSetWithTTL "k" 7 5); (101, CGet "k"); (102, CGet "x");
                (103, CStats); (110, CGet "k")] (newCache (V:=Z) 2) in
  0 ≤ Hits (stats c) ∧
  0 ≤ Misses (stats c) ∧
  Hits (stats c) + Misses (stats c)
  = countGets [(100, CSetWithTTL "k" 7 5); (101, CGet "k"); (102, CGet "x");
               (103, CStats); (110, CGet "k")].
Proof.
  apply (counters_count_gets 2 (newCache 2)
           [(100, CSetWithTTL "k" 7 5); (101, CGet "k"); (102, CGet "x");
            (103, CStats); (110, CGet "k")]).
  - reflexivity.
  - vm_compute. reflexivity.
Defined.

(** X5: stored at 100 for 50, read at the deadline 150 after two reads. *)
Lemma SetWithTTL_Get_live_witness :
  ret (Get 150 "k"
         (run [(120, CGet "k"); (130, CStats)]
            (next (SetWithTTL 100 "k" 7 50 (newCache 2))))) = Some 7.
Proof.
  apply (SetWithTTL_Get_live (newCache 2) "k" 7 50 100
           [(120, CGet "k"); (130, CStats)] 150).
  - exists 2, (newCache 2), []. split; reflexivity.
  - repeat constructor; simpl; lia.
  - lia.
Defined.

(** X7 on a cache of capacity 2 that never gets full. *)
Lemma index_within_engine_without_eviction_witness :
  indexInEngine
    (run [(100, CSetWithTTL "a" 1 5); (101, CGet "a"); (102, CSet "a" 2)]
       (newCache (V:=Z) 2)).
Proof.
  apply (index_within_engine_without_eviction 2 (newCache 2)
           [(100, CSetWithTTL "a" 1 5); (101, CGet "a"); (102, CSet "a" 2)]).
  - reflexivity.
  - repeat split; intros (k & _ & _ & Hfull); vm_compute in Hfull; by apply Hfull.
Defined.

(** X8 on a cache of capacity 2 with two stores. *)
Lemma stores_within_capacity_found_witness :
  let calls := [(100, CSet "a" 1); (101, CSetWithTTL "b" 2 50)] in
  (∀ t0 key v t, (t0, CSet key v) ∈ calls →
     ret (Get t key (run calls (newCache 2))) = Some v) ∧
  (∀ t0 key v ttl t, (t0, CSetWithTTL key v ttl) ∈ calls → t ≤ t0 + ttl →
     ret (Get t key (run calls (newCache 2))) = Some v).
Proof.
  apply (stores_within_capacity_found 2 (newCache 2)
           [(100, CSet "a" 1); (101, CSetWithTTL "b" 2 50)]).
  - reflexivity.
  - repeat constructor.
  - apply (bool_decide_unpack _). vm_compute. exact I.
  - simpl. lia.
Defined.

(** X10: the only tracked key is [order:1], the pattern is [user:*]. *)
Lemma DeleteByPattern_no_match_witness :
  let c := run [(100, CSetWithTTL "order:1" 7 60); (101, CSet "user:1" 8)]
             (newCache (V:=Z) 4) in
  next (DeleteByPattern "user:*" c) = c ∧
  logged (DeleteByPattern "user:*" c)
  = mkLog "Cache delete by pattern" [("pattern", LStr "user:*"); ("count", LInt 0)] ∧
  ret (DeleteByPattern "user:*" c) = nil.
Proof.
  apply (DeleteByPattern_no_match "user:*"
           (run [(100, CSetWithTTL "order:1" 7 60); (101, CSet "user:1" 8)]
              (newCache 4))).
  intros key [t Ht]. cbn in Ht.
  destruct (decide (key = "user:1")) as [->|Hne1].
  - by rewrite lookup_delete_eq in Ht.
  - rewrite lookup_delete_ne in Ht by done.
    destruct (decide (key = "order:1")) as [->|Hne2]; [reflexivity|].
    rewrite lookup_insert_ne, lookup_empty in Ht by done. done.
Defined.

(** X12: stored at 100 for 5, still counted at 200, gone after the read. *)
Lemma expired_entry_counted_until_read_witness :
  let c := run [(100, CSetWithTTL "k" 7 5); (101, CSet "j" 8)] (newCache (V:=Z) 2) in
  cache (Stats_ c).2 = cache c ∧
  Size (statsOf (Stats_ c).2) = Size (statsOf c) ∧
  Size (statsOf (next (Get 200 "k" c))) = Size (statsOf c) - 1.
Proof.
  apply (expired_entry_counted_until_read
           (run [(100, CSetWithTTL "k" 7 5); (101, CSet "j" 8)] (newCache 2))
           "k" (mkItem 7 105) 200).
  - exists 2, (newCache 2), [(100, CSetWithTTL "k" 7 5); (101, CSet "j" 8)].
    split; reflexivity.
  - reflexivity.
  - reflexivity.
Defined.

(** X15: 101 records in pages of 10 make 11 pages. *)
Lemma pagination_page_total_witness :
  let p := response.Pagination_
             (response.body
                (response.SuccessWithPagination (D:=Z) "ok" None 3 10 101)) in
  (response.PageTotal p - 1) * 10 < 101 ∧
  101 ≤ response.PageTotal p * 10 ∧
  (response.PageTotal p = 0 ↔ 101 = 0).
Proof.
  apply (pagination_page_total (D:=Z) "ok" None 3 10 101).
  - lia.
  - lia.
  - unfold int64. lia.
Defined.

(** X22 on a full cache of capacity 2: [a] is read, then [c] is stored. *)
Lemma Get_protects_from_eviction_witness :
  let c := run [(1, CSet "a" 1); (2, CSet "b" 2)] (newCache (V:=Z) 2) in
  entry "a" (next (Set_ "c" 3 (next (Get 3 "a" c)))) = Some (mkItem 1 0) ∧
  ∀ t ttl, entry "a" (next (SetWithTTL t "c" 3 ttl (next (Get 3 "a" c))))
           = Some (mkItem 1 0).
Proof.
  apply (Get_protects_from_eviction
           (run [(1, CSet "a" 1); (2, CSet "b" 2)] (newCache 2))
           "a" "c" 3 (mkItem 1 0) 3).
  - simpl. lia.
  - reflexivity.
  - reflexivity.
  - discriminate.
  - intros [w Hw]. vm_compute in Hw. discriminate.
Defined.

(** X23 on a full cache of capacity 2: [a] is stored again. *)
Lemma store_existing_key_witness :
  let c := run [(1, CSetWithTTL "a" 1 5); (2, CSet "b" 2)] (newCache (V:=Z) 2) in
  let c1 := next (Set_ "a" 9 c) in
  let c2 := next (SetWithTTL 10 "a" 9 20 c) in
  (∀ k, k ≠ "a" → entry k c1 = entry k c ∧ ttlMap c1 !! k = ttlMap c !! k) ∧
  (∀ k, k ≠ "a" → entry k c2 = entry k c ∧ ttlMap c2 !! k = ttlMap c !! k) ∧
  Size (statsOf c1) = Size (statsOf c) ∧
  Size (statsOf c2) = Size (statsOf c) ∧
  entry "a" c1 = Some (mkItem 9 0) ∧
  ttlMap c1 !! "a" = None ∧
  entry "a" c2 = Some (mkItem 9 (10 + 20)) ∧
  ttlMap c2 !! "a" = Some (10 + 20).
Proof.
  apply (store_existing_key
           (run [(1, CSetWithTTL "a" 1 5); (2, CSet "b" 2)] (newCache 2))
           "a" 9 10 20).
  - exists 2, (newCache 2), [(1, CSetWithTTL "a" 1 5); (2, CSet "b" 2)].
    split; reflexivity.
  - eexists. reflexivity.
Defined.

(** X24 with the scheme in lower case. *)
Lemma AuthMiddleware_malformed_header_witness :
  let c := middleware.mkCtx "bearer abc" ∅ in
  middleware.AuthMiddleware (D:=Z) (λ _, inr middleware.ErrExpiredToken) c
  = middleware.Replied
      (response.Unauthorized
         (if decide (middleware.Authorization c = "")
          then "Authorization header is required"
          else "Invalid authorization header format")).
Proof.
  apply (AuthMiddleware_malformed_header (D:=Z)
           (λ _, inr middleware.ErrExpiredToken)
           (middleware.mkCtx "bearer abc" ∅)).
  intros tok _ Heq. simpl in Heq. discriminate.
Defined.

(** X25: two tracked keys match, collected in the two possible orders. *)
Lemma DeleteByPattern_order_irrelevant_witness :
  let c := run [(100, CSetWithTTL "user:1" 1 60); (101, CSetWithTTL "user:2" 2 60);
                (102, CSetWithTTL "order:1" 3 60)] (newCache (V:=Z) 4) in
  deleteKeys ["user:2"; "user:1"] c = next (DeleteByPattern "user:*" c) ∧
  length ["user:2"; "user:1"] = length (keysToDelete "user:*" c).
Proof.
  apply (DeleteByPattern_order_irrelevant "user:*" ["user:2"; "user:1"]
           (run [(100, CSetWithTTL "user:1" 1 60); (101, CSetWithTTL "user:2" 2 60);
                 (102, CSetWithTTL "order:1" 3 60)] (newCache 4))).
  vm_compute. apply perm_swap.
Defined.
End ExtrasConcrete.
